(** * Khatchkars: the location cache and the fallback geocoding resolver

    A shallow embedding of [mapping.py]: the cleaning of location
    strings, the cache that is loaded, seeded with the manual overrides,
    extended by the resolution loop and persisted, the filtering of the
    records that have no coordinates, the centre of the map and the
    markers handed to it. *)

From Stdlib Require Import Floats Ascii String Uint63.
From stdpp Require Import gmap list sorting.
From Equations Require Import Equations.

Set Warnings "-inexact-float,-register-all".

(** ** Python strings

    A Python [str] is a sequence of Unicode code points; [sorted]
    compares such sequences lexicographically by code point, and [\s]
    and [str.strip] use the Unicode notion of white space. *)

Abbreviation str := (list N).

(** An ASCII literal as a Python string. *)
Definition py (s : string) : str :=
  N_of_ascii <$> list_ascii_of_string s.

(** [str.isspace] on one character, which is also what [\s] matches in a
    [str] pattern. *)
Definition isspace (c : N) : bool :=
  (((9 <=? c) && (c <=? 13)) || ((28 <=? c) && (c <=? 32))
   || (c =? 133) || (c =? 160) || (c =? 5760)
   || ((8192 <=? c) && (c <=? 8202))
   || (c =? 8232) || (c =? 8233) || (c =? 8239) || (c =? 8287)
   || (c =? 12288))%N.

Definition lparen : N := 40%N.
Definition rparen : N := 41%N.

(** [\s*]: greedy, so it takes the whole run of white space. Giving back
    part of the run never helps the rest of the pattern, because the
    character that would then have to be an opening parenthesis is a white
    space. *)
Fixpoint skip_ws (s : str) : str :=
  match s with
  | c :: r => if isspace c then skip_ws r else s
  | [] => []
  end.

(** [[^)]*\)]: everything up to and including the first closing
    parenthesis; [None] when there is none. *)
Fixpoint after_close (s : str) : option str :=
  match s with
  | [] => None
  | c :: r => if (c =? rparen)%N then Some r else after_close r
  end.

(** One attempt to match [\s*\([^)]*\)] at the start of [s]: the text that
    follows the match. *)
Definition match_at (s : str) : option str :=
  match skip_ws s with
  | c :: r => if (c =? lparen)%N then after_close r else None
  | [] => None
  end.

Lemma skip_ws_length s : length (skip_ws s) ≤ length s.
Proof.
  induction s as [|c r IH]; simpl; [lia|].
  destruct (isspace c); simpl; lia.
Qed.

Lemma after_close_length s rest :
  after_close s = Some rest → length rest < length s.
Proof.
  revert rest. induction s as [|c r IH]; intros rest; simpl; [discriminate|].
  destruct (c =? rparen)%N.
  - intros [= <-]. lia.
  - intros H. apply IH in H. lia.
Qed.

Lemma match_at_length s rest :
  match_at s = Some rest → length rest < length s.
Proof.
  unfold match_at. pose proof (skip_ws_length s) as Hs.
  destruct (skip_ws s) as [|c r]; [discriminate|].
  destruct (c =? lparen)%N; [|discriminate].
  intros H. apply after_close_length in H. simpl in Hs. lia.
Qed.

Definition inspect {A} (a : A) : {b | a = b} := exist _ a eq_refl.

(** [re.sub(r"\s*\([^)]*\)", "", text)]: scan from the left; where the
    pattern matches, drop the match and go on after it, otherwise keep the
    character and move one position on. *)
Equations re_sub (s : str) : str by wf (length s) lt :=
  re_sub [] := [];
  re_sub (c :: r) with inspect (match_at (c :: r)) := {
    | exist _ (Some rest) _ := re_sub rest;
    | exist _ None _ := c :: re_sub r }.
Next Obligation.
  match goal with H : match_at _ = Some _ |- _ =>
    apply match_at_length in H; simpl in H; lia end.
Qed.

(** [str.strip()]. *)
Definition strip (s : str) : str :=
  reverse (skip_ws (reverse (skip_ws s))).

(** [strip_parens], lines 72-73. *)
Definition strip_parens (text : str) : str := strip (re_sub text).

(** The cleaning as the specification words it: each parenthetical
    segment goes together with the white space on both of its sides.
    It is only compared with [strip_parens]. *)
Equations re_sub_surrounding (s : str) : str by wf (length s) lt :=
  re_sub_surrounding [] := [];
  re_sub_surrounding (c :: r) with inspect (match_at (c :: r)) := {
    | exist _ (Some rest) _ := re_sub_surrounding (skip_ws rest);
    | exist _ None _ := c :: re_sub_surrounding r }.
Next Obligation.
  match goal with H : match_at _ = Some ?t |- _ =>
    apply match_at_length in H; pose proof (skip_ws_length t);
    simpl in H; lia end.
Qed.

Definition strip_parens_as_specified (text : str) : str :=
  strip (re_sub_surrounding text).

(** A string has a parenthetical segment when an opening parenthesis is
    followed, somewhere later, by a closing one. *)
Definition has_segment (s : str) : Prop :=
  ∃ a b c, s = a ++ lparen :: b ++ rparen :: c.

Definition all_space (s : str) : Prop := Forall (λ c, isspace c = true) s.

(** ** Data model *)

(** One flattened khachkar, lines 31-42: ten stripped strings. *)
Record FlatRecord := {
  place : str; site : str; imageurl : str; name : str; location : str;
  origin : str; sculptor : str; date : str; description : str;
  source : str }.

(** What the geocoder answers: a [geopy] location, of which the program
    reads the two coordinates. Such an object is always truthy, so
    [if found] tests for [None]. *)
Record Location := { latitude : float; longitude : float }.

(** A row of the cache table [cache_df]. Reading the storage artifact
    may yield a [query] cell that is not a string (a missing value or a
    number): that is [None] here. No location string is equal to such a
    cell. *)
Record Row := { query : option str; lat : float; lon : float }.

(** A record with the two columns added on lines 103-104; a location that
    the cache does not know gets [None] in both. *)
Record GeocodedRecord := {
  record : FlatRecord; record_lat : option float; record_lon : option float }.

(** The part of a [folium.Marker] that depends on the resolution: where it
    stands and its tooltip. The popup and the icon are left out. *)
Record Marker := { marker_location : float * float; tooltip : str }.

(** The lines printed on the way. *)
Inductive Message :=
  | Loaded (n : nat)
  | CouldntGeocode (loc_raw : str)
  | Geocoded (n : nat).

(** The exceptions that stop the script once the records are loaded: the
    one of line 76 on a table without columns, and the one of line 110,
    where [folium.Map] refuses a centre that has a NaN. *)
Inductive Exn :=
  | KeyError (column : str)
  | ValueError.

Inductive Result (A : Type) :=
  | Ok (a : A)
  | Raise (e : Exn).
Arguments Ok {A} a.
Arguments Raise {A} e.

(** Line 52. *)
Definition COUNTRIES : list str :=
  [py "Armenia"; py "Turkey"; py "Georgia"; py "Iran"; py "Azerbaijan"].

(** Lines 55-60. *)
Definition MANUAL : gmap str (float * float) :=
  list_to_map
    [(py "Haghartzin (Dilijan)", (40.8016%float, 44.8909%float));
     (py "Talin Kamsarakan (Talin)", (40.3874%float, 43.8733%float))].

(** Line 64: the dictionary built from the rows of the table, a later row
    replacing an earlier one with the same query. Keys that are not
    strings are dropped: the program only ever looks strings up. *)
Definition dict_of_rows (rows : list Row) : gmap str (float * float) :=
  foldl (λ d r, match query r with
                | Some q => <[q := (lat r, lon r)]> d
                | None => d
                end) ∅ rows.

(** Line 67, [cache.update(MANUAL)]: the manual entries win. *)
Definition update_manual (cache : gmap str (float * float))
  : gmap str (float * float) := MANUAL ∪ cache.

(** Order of [sorted] on strings: lexicographic, by code point. *)
Fixpoint str_leb (s t : str) : bool :=
  match s, t with
  | [], _ => true
  | _ :: _, [] => false
  | a :: s', b :: t' =>
      if (a <? b)%N then true
      else if (a =? b)%N then str_leb s' t' else false
  end.

Definition str_le (s t : str) : Prop := Is_true (str_leb s t).

#[global] Instance str_le_dec : RelDecision str_le.
Proof. intros s t. unfold str_le. apply _. Defined.

(** Line 76: [sorted(set(df["location"]) - set(cache))]. *)
Definition pending (locations : list str) (cache : gmap str (float * float))
  : list str :=
  merge_sort str_le (elements (list_to_set locations ∖ dom cache : gset str)).

(** [f"{loc_clean}, {ctry}"]. *)
Definition qualified (loc_clean ctry : str) : str :=
  loc_clean ++ py ", " ++ ctry.

(** Lines 103-104 on one record. *)
Definition with_coords (cache : gmap str (float * float)) (r : FlatRecord)
  : GeocodedRecord :=
  {| record := r;
     record_lat := fst <$> cache !! location r;
     record_lon := snd <$> cache !! location r |}.

(** A row that survives [dropna]: both coordinates are there and neither
    is a NaN. *)
Record MapRow := { row_record : FlatRecord; row_lat : float; row_lon : float }.

Definition isna (x : option float) : bool :=
  match x with
  | None => true
  | Some f => PrimFloat.is_nan f
  end.

(** Line 105, [df.dropna(subset=["lat", "lon"])], on one record. *)
Definition notna_row (g : GeocodedRecord) : option MapRow :=
  match record_lat g, record_lon g with
  | Some la, Some lo =>
      if isna (Some la) || isna (Some lo) then None
      else Some {| row_record := record g; row_lat := la; row_lon := lo |}
  | _, _ => None
  end.

Definition dropna (df : list GeocodedRecord) : list MapRow :=
  omap notna_row df.

(** [x or default] on strings. *)
Definition or_default (x default : str) : str :=
  match x with [] => default | _ => x end.

Definition en_dash : N := 8211%N.

(** The marker of lines 132-137 for a record found at [(la, lo)]. *)
Definition marker_at (r : FlatRecord) (la lo : float) : Marker :=
  {| marker_location := (la, lo);
     tooltip := or_default (name r) (py "Khachkar")
                  ++ py " " ++ [en_dash] ++ py " " ++ location r |}.

(** Lines 113-137: a row without an image is skipped, any other row gets
    one marker. *)
Definition marker_of (row : MapRow) : option Marker :=
  match imageurl (row_record row) with
  | [] => None
  | _ :: _ => Some (marker_at (row_record row) (row_lat row) (row_lon row))
  end.

Definition markers (df : list MapRow) : list Marker := omap marker_of df.

(** Line 109, [df["lat"].mean()]: the mean of a column without rows is a
    NaN; the mean of any other column is the reduction [mean] of the
    numerical library, whose order of additions the script does not fix:
    it is a parameter of the model. *)
Definition column_mean (mean : list float → float) (column : list float)
  : float :=
  match column with
  | [] => PrimFloat.nan
  | _ :: _ => mean column
  end.

Definition center (mean : list float → float) (df : list MapRow)
  : float * float :=
  (column_mean mean (row_lat <$> df), column_mean mean (row_lon <$> df)).

(** Line 110: [folium.Map] takes a centre neither of whose coordinates is
    a NaN, and raises on any other. *)
Definition center_ok (mean : list float → float) (df : list MapRow) : bool :=
  negb (PrimFloat.is_nan (center mean df).1
        || PrimFloat.is_nan (center mean df).2).

(** ** The run

    The program talks to three things: the geocoding service, the
    console and the storage artifact. They are the state that the run
    threads; [calls] and [writes] record, in order, the queries sent to
    the service and the tables written to the artifact. *)

Section pipeline.
(** The geocoding service behind [RateLimiter(geocoder.geocode)]: it may
    answer the same query differently from call to call, and a failure of
    the service is an answer [None] like any other. *)
Context {Service : Type}.
Variable geocoder : str → Service → option Location * Service.

(** The storage artifact and the two [pandas] functions that read and
    write the table. *)
Context {File : Type}.
Variable read_csv : File → list Row.
Variable to_csv : list Row → File.

(** [Series.mean] on a column that has rows. *)
Variable mean : list float → float.

Record World := {
  service : Service;
  calls : list str;
  stdout : list Message;
  disk : option File;
  writes : list File }.

Definition M (A : Type) : Type := World → A * World.

#[global] Instance M_ret : MRet M := λ A a w, (a, w).

#[global] Instance M_bind : MBind M := λ A B k m w,
  let '(a, w') := m w in k a w'.

Definition ret {A} (a : A) : M A := mret a.

(** One live call, lines 81 and 86. *)
Definition geocode (q : str) : M (option Location) := λ w,
  let '(found, s) := geocoder q (service w) in
  (found, {| service := s; calls := calls w ++ [q]; stdout := stdout w;
             disk := disk w; writes := writes w |}).

Definition print (m : Message) : M unit := λ w,
  (tt, {| service := service w; calls := calls w;
          stdout := stdout w ++ [m];
          disk := disk w; writes := writes w |}).

(** Line 63: the table on disk, or an empty one with the three columns. *)
Definition load_cache_df : M (list Row) := λ w,
  (match disk w with Some f => read_csv f | None => [] end, w).

(** Line 99. *)
Definition write_cache_df (cache_df : list Row) : M unit := λ w,
  (tt, {| service := service w; calls := calls w; stdout := stdout w;
          disk := Some (to_csv cache_df);
          writes := writes w ++ [to_csv cache_df] |}).

(** Lines 78-83: the loop over the countries, left at the first answer. *)
Fixpoint try_countries (loc_clean : str) (countries : list str)
  : M (option Location) :=
  match countries with
  | [] => ret None
  | ctry :: rest =>
      found ← geocode (qualified loc_clean ctry);
      match found with
      | Some _ => ret found
      | None => try_countries loc_clean rest
      end
  end.

(** Lines 77-86. *)
Definition resolve (loc_raw : str) : M (option Location) :=
  let loc_clean := strip_parens loc_raw in
  found ← try_countries loc_clean COUNTRIES;
  match found with
  | Some _ => ret found
  | None => geocode (strip_parens loc_raw)
  end.

(** Lines 77-94, one turn of the loop on [cache] and [new_rows]. *)
Definition resolve_step (st : gmap str (float * float) * list Row)
    (loc_raw : str) : M (gmap str (float * float) * list Row) :=
  found ← resolve loc_raw;
  match found with
  | Some f =>
      ret (<[loc_raw := (latitude f, longitude f)]> (fst st),
           snd st ++ [{| query := Some loc_raw;
                         lat := latitude f; lon := longitude f |}])
  | None => print (CouldntGeocode loc_raw);; ret st
  end.

Fixpoint resolve_all (st : gmap str (float * float) * list Row)
    (todo : list str) : M (gmap str (float * float) * list Row) :=
  match todo with
  | [] => ret st
  | loc_raw :: rest =>
      st' ← resolve_step st loc_raw;
      resolve_all st' rest
  end.

(** Lines 97-99. *)
Definition persist (cache_df new_rows : list Row) : M unit :=
  match new_rows with
  | [] => ret tt
  | _ :: _ => write_cache_df (cache_df ++ new_rows)
  end.

(** What a run leaves behind, besides the state of the world. *)
Record Outcome := {
  cache : gmap str (float * float);
  new_rows : list Row;
  df : list MapRow;
  rendered : list Marker }.

(** Lines 44-137. An empty list of records makes a table without
    columns, and line 76 then raises on [df["location"]]. When the loop
    is over, the cache is persisted and the count is printed, line 110
    raises on a centre that has a NaN, as the centre of a table without
    rows has; otherwise the markers are made. *)
Definition run (records : list FlatRecord) : M (Result Outcome) :=
  print (Loaded (length records));;
  cache_df ← load_cache_df;
  let cache0 := update_manual (dict_of_rows cache_df) in
  match records with
  | [] => ret (Raise (KeyError (py "location")))
  | _ :: _ =>
      st ← resolve_all (cache0, []) (pending (location <$> records) cache0);
      persist cache_df (snd st);;
      let df := dropna (with_coords (fst st) <$> records) in
      print (Geocoded (length df));;
      if center_ok mean df
      then ret (Ok {| cache := fst st; new_rows := snd st; df := df;
                      rendered := markers df |})
      else ret (Raise ValueError)
  end.
End pipeline.

(** ** Vocabulary of the statements *)

(** The six queries of one location, in the order of lines 80-86. *)
Definition variants (loc_raw : str) : list str :=
  (qualified (strip_parens loc_raw) <$> COUNTRIES) ++ [strip_parens loc_raw].

(** How many answers fail before the first one that does not. *)
Fixpoint leading_failures (answers : list (option Location)) : nat :=
  match answers with
  | None :: rest => S (leading_failures rest)
  | _ => 0
  end.

Section asking.
Context {Service : Type}.
Variable geocoder : str → Service → option Location * Service.

(** What the service answers to a list of queries sent one after the
    other, and the state it is in afterwards. *)
Fixpoint answers (qs : list str) (s : Service) : list (option Location) :=
  match qs with
  | [] => []
  | q :: rest => (geocoder q s).1 :: answers rest (geocoder q s).2
  end.

Fixpoint after_queries (qs : list str) (s : Service) : Service :=
  match qs with
  | [] => s
  | q :: rest => after_queries rest (geocoder q s).2
  end.

(** The queries that reach the service when [qs] is tried in order up to
    the first answer, and that answer. *)
Definition issued (qs : list str) (s : Service) : list str :=
  take (S (leading_failures (answers qs s))) qs.

Definition first_answer (qs : list str) (s : Service) : option Location :=
  mjoin (answers qs s !! leading_failures (answers qs s)).

(** A query that the service never answers, whatever state it is in. *)
Definition never_found (q : str) : Prop := ∀ s, (geocoder q s).1 = None.
End asking.

Section asking_in_order.
Context {Service File : Type}.
Variable geocoder : str → Service → option Location * Service.

(** The candidate queries tried in order, the first answer winning. *)
Fixpoint first_success (qs : list str)
  : M (Service := Service) (File := File) (option Location) :=
  match qs with
  | [] => mret None
  | q :: rest =>
      found ← geocode geocoder q;
      match found with
      | Some _ => mret found
      | None => first_success rest
      end
  end.

(** The world once [qs] has been tried in order. *)
Definition asked (qs : list str) (w : World) : World :=
  {| service := after_queries geocoder (issued geocoder qs (service w))
                  (service w);
     calls := calls w ++ issued geocoder qs (service w);
     stdout := stdout w; disk := disk w (File := File);
     writes := writes w |}.

(** The queries that reach the service when the locations of [todo] are
    resolved one after the other, starting with the service in state
    [s]. *)
Fixpoint all_issued (todo : list str) (s : Service) : list str :=
  match todo with
  | [] => []
  | l :: rest =>
      issued geocoder (variants l) s
        ++ all_issued rest
             (after_queries geocoder (issued geocoder (variants l) s) s)
  end.

(** The world when the program starts: nothing was sent, printed or
    written yet. *)
Definition start (s : Service) (d : option File) : World :=
  {| service := s; calls := []; stdout := []; disk := d; writes := [] |}.

(** The same world with another storage artifact. *)
Definition with_disk (d : option File)
    (w : World (Service := Service) (File := File)) : World :=
  {| service := service w; calls := calls w; stdout := stdout w;
     disk := d; writes := writes w |}.

Variable read_csv : File → list Row.

(** The table that line 63 loads, and the cache of line 67. *)
Definition table_on_disk (d : option File) : list Row :=
  match d with Some f => read_csv f | None => [] end.

Definition initial_cache (d : option File) : gmap str (float * float) :=
  update_manual (dict_of_rows (table_on_disk d)).

(** The cache and the new rows, and the world, when the loop of lines
    76-94 is over in a run on [records] that started in [start s d]. *)
Definition after_loop (records : list FlatRecord) (s : Service)
    (d : option File)
  : (gmap str (float * float) * list Row) * World :=
  resolve_all geocoder (initial_cache d, [])
    (pending (location <$> records) (initial_cache d))
    (print (Loaded (length records)) (start s d)).2.
End asking_in_order.

(** The queries of a table that are strings. *)
Definition string_queries (rows : list Row) : list str := omap query rows.

(** The row appended for a location that the cache now knows, and the
    locations of a list that the cache still does not know. *)
Definition row_of (cache : gmap str (float * float)) (loc_raw : str)
  : option Row :=
  (λ p, {| query := Some loc_raw; lat := p.1; lon := p.2 |})
    <$> cache !! loc_raw.

Definition unresolved (cache : gmap str (float * float)) (todo : list str)
  : list str :=
  filter (λ l, cache !! l = None) todo.

(** Strictly before, in the order of [sorted]. *)
Definition str_lt (s t : str) : Prop := str_le s t ∧ s ≠ t.

Section run_after_run.
Context {Service File : Type}.
Variable geocoder : str → Service → option Location * Service.
Variable read_csv : File → list Row.
Variable to_csv : list Row → File.
Variable mean : list float → float.

(** The storage artifact after one run on [records] for each service
    state of [earlier], each run finding what the one before left. *)
Fixpoint disk_after_runs (records : list FlatRecord)
    (earlier : list Service) (d : option File) : option File :=
  match earlier with
  | [] => d
  | s :: rest =>
      disk_after_runs records rest
        (disk (run geocoder read_csv to_csv mean records (start s d)).2)
  end.

(** The table that a run on [records] from [start s d] writes when it
    has new rows: the one it loaded with the new rows at its end. *)
Definition written_table (records : list FlatRecord) (s : Service)
    (d : option File) : list Row :=
  table_on_disk read_csv d ++ (after_loop geocoder read_csv records s d).1.2.

(** Along the runs of [earlier], each finding what the one before left,
    reading back a table that was written does not bring the query string
    [l] when that table does not hold it. *)
Fixpoint not_invented (l : str) (records : list FlatRecord)
    (earlier : list Service) (d : option File) : Prop :=
  match earlier with
  | [] => True
  | s :: rest =>
      ((after_loop geocoder read_csv records s d).1.2 ≠ [] →
       l ∈ string_queries (read_csv (to_csv (written_table records s d))) →
       l ∈ string_queries (written_table records s d)) ∧
      not_invented l records rest
        (disk (run geocoder read_csv to_csv mean records (start s d)).2)
  end.
End run_after_run.

(** The marker that a record gets from a cache: none when the cache does
    not know its location, when a coordinate is a NaN, or when the record
    has no image. *)
Definition expected_marker (cache : gmap str (float * float))
    (r : FlatRecord) : option Marker :=
  match cache !! location r with
  | Some (la, lo) =>
      if PrimFloat.is_nan la || PrimFloat.is_nan lo then None
      else if decide (imageurl r = []) then None
      else Some (marker_at r la lo)
  | None => None
  end.

(** ** Scenarios *)

(** A storage artifact that keeps the table as it is. *)
Definition plain_read_csv : list Row → list Row := id.
Definition plain_to_csv : list Row → list Row := id.

(** A mean: the sum from left to right, divided by the number of rows. *)
Definition plain_mean (column : list float) : float :=
  (foldl PrimFloat.add 0%float column
   / PrimFloat.of_uint63 (Uint63.of_Z (Z.of_nat (length column))))%float.

(** The storage artifact as [pandas] writes and reads it when no cell
    of the query column is a numeral or a truth value (a column of such
    cells is read as numbers or truth values): a line of the file has the
    text of the query and the two numbers; a query that is missing is
    written as the empty text, and a cell that is empty or one of the
    markers of a missing value is read as missing. *)
Record CsvLine := { query_cell : str; lat_cell : float; lon_cell : float }.

Definition na_values : list str :=
  [] :: (py <$> ["#N/A"; "#N/A N/A"; "#NA"; "-1.#IND"; "-1.#QNAN"; "-NaN";
                  "-nan"; "1.#IND"; "1.#QNAN"; "<NA>"; "N/A"; "NA"; "NULL";
                  "NaN"; "None"; "n/a"; "nan"; "null"]%string).

Definition pandas_to_csv (rows : list Row) : list CsvLine :=
  (λ r, {| query_cell := default [] (query r);
           lat_cell := lat r; lon_cell := lon r |}) <$> rows.

Definition pandas_read_csv (f : list CsvLine) : list Row :=
  (λ c, {| query := if decide (query_cell c ∈ na_values) then None
                    else Some (query_cell c);
           lat := lat_cell c; lon := lon_cell c |}) <$> f.

(** A service that knows Armenia when asked for nothing but the
    country. *)
Definition armenia : Location :=
  {| latitude := 40.0691%float; longitude := 45.0382%float |}.

Definition knows_armenia : str → unit → option Location * unit :=
  λ q s, (if decide (q = py ", Armenia") then Some armenia else None, s).

(** A service that knows nothing. *)
Definition knows_nothing : str → unit → option Location * unit :=
  λ _ s, (None, s).

(** A service that knows Akhaltsikhe, and only when asked for it in
    Georgia. *)
Definition akhaltsikhe : Location :=
  {| latitude := 41.6390%float; longitude := 42.9826%float |}.

Definition knows_akhaltsikhe : str → unit → option Location * unit :=
  λ q s, (if decide (q = py "Akhaltsikhe, Georgia") then Some akhaltsikhe
          else None, s).

(** The record of the end-to-end scenario. *)
Definition cross_stone_1 : FlatRecord :=
  {| place := py "Talin"; site := py "Kamsarakan Church";
     imageurl := py "http://x/img.jpg"; name := py "Cross Stone 1";
     location := py "Talin Kamsarakan (Talin)";
     origin := []; sculptor := []; date := []; description := [];
     source := [] |}.

(** The same khachkar without an image. *)
Definition cross_stone_no_image : FlatRecord :=
  {| place := py "Talin"; site := py "Kamsarakan Church";
     imageurl := []; name := py "Cross Stone 1";
     location := py "Talin Kamsarakan (Talin)";
     origin := []; sculptor := []; date := []; description := [];
     source := [] |}.

Definition stone_at (loc : string) : FlatRecord :=
  {| place := []; site := []; imageurl := py "http://x/img.jpg";
     name := []; location := py loc;
     origin := []; sculptor := []; date := []; description := [];
     source := [] |}.

(** The table on disk for the scenario of the append. *)
Definition one_row_table : list Row :=
  [{| query := Some (py "Sevan"); lat := 40.5%float; lon := 45%float |}].

(** ** Loading and flattening

    What [json.load] returns: [None], a truth value, an integer, a float,
    a string, a list or a dict. The items of a dict are in the order of
    the document; when a key comes twice the later value is the one that
    [get] sees. *)

Inductive json :=
  | JNull
  | JBool (b : bool)
  | JInt (z : Z)
  | JFloat (f : float)
  | JStr (s : str)
  | JList (items : list json)
  | JDict (items : list (str * json)).

(** The two exceptions that lines 23-42 can raise on a parsed document. *)
Inductive LoadError := AttributeError | TypeError.

Inductive Loading (A : Type) :=
  | Got (a : A)
  | Failed (e : LoadError).
Arguments Got {A} a.
Arguments Failed {A} e.

#[global] Instance Loading_ret : MRet Loading := λ A a, Got a.

#[global] Instance Loading_bind : MBind Loading := λ A B k m,
  match m with
  | Got a => k a
  | Failed e => Failed e
  end.

(** Truth value of a parsed value, as [or] tests it. *)
Definition truthy (v : json) : bool :=
  match v with
  | JNull => false
  | JBool b => b
  | JInt z => negb (z =? 0)%Z
  | JFloat f => negb (PrimFloat.eqb f 0%float)
  | JStr s => match s with [] => false | _ => true end
  | JList items => match items with [] => false | _ => true end
  | JDict items => match items with [] => false | _ => true end
  end.

(** The value at [key] in the items of a dict, a later item winning. *)
Fixpoint dict_get (key : str) (items : list (str * json)) : option json :=
  match items with
  | [] => None
  | (k, v) :: rest =>
      match dict_get key rest with
      | Some v' => Some v'
      | None => if decide (k = key) then Some v else None
      end
  end.

(** The keys of a dict in the order of their first occurrence. *)
Definition dict_keys (items : list (str * json)) : list str :=
  reverse (remove_dups (reverse (items.*1))).

(** [d.get(key, otherwise)]: only a dict has the method. *)
Definition get (d : json) (key : str) (otherwise : json) : Loading json :=
  match d with
  | JDict items => Got (default otherwise (dict_get key items))
  | _ => Failed AttributeError
  end.

(** [x or ""]. *)
Definition or_empty (v : json) : json := if truthy v then v else JStr [].

(** [x.strip()]: only a string has the method. *)
Definition strip_method (v : json) : Loading str :=
  match v with
  | JStr s => Got (strip s)
  | _ => Failed AttributeError
  end.

(** [(d.get(key) or "").strip()], lines 27-28 and 34-41. *)
Definition text_field (d : json) (key : string) : Loading str :=
  v ← get d (py key) JNull;
  strip_method (or_empty v).

(** [for k in v]: the items of a list, the characters of a string, the
    keys of a dict; nothing else can be iterated. *)
Definition iterate (v : json) : Loading (list json) :=
  match v with
  | JList items => Got items
  | JStr s => Got ((λ c, JStr [c]) <$> s)
  | JDict items => Got (JStr <$> dict_keys items)
  | _ => Failed TypeError
  end.

(** Lines 31-42, the record of one khachkar. *)
Definition khachkar_record (place site : str) (k : json)
  : Loading FlatRecord :=
  imageurl ← text_field k "ImageUrl";
  name ← text_field k "Name";
  location ← text_field k "Location";
  origin ← text_field k "Origin";
  sculptor ← text_field k "Sculptor";
  date ← text_field k "Date";
  description ← text_field k "Description";
  source ← text_field k "Source";
  mret {| place := place; site := site; imageurl := imageurl; name := name;
          location := location; origin := origin; sculptor := sculptor;
          date := date; description := description; source := source |}.

(** The loop of lines 30-42 over the khachkars of one file. *)
Fixpoint khachkar_records (place site : str) (khachkars : list json)
  : Loading (list FlatRecord) :=
  match khachkars with
  | [] => mret []
  | k :: rest =>
      r ← khachkar_record place site k;
      rs ← khachkar_records place site rest;
      mret (r :: rs)
  end.

(** Lines 27-42 for one parsed file [top]. *)
Definition flatten_file (top : json) : Loading (list FlatRecord) :=
  place ← text_field top "Place";
  site ← text_field top "Site";
  v ← get top (py "Khachkars") (JList []);
  khachkars ← iterate v;
  khachkar_records place site khachkars.

(** Lines 23-42: the records of the parsed files, in the order of the
    sorted paths. *)
Fixpoint flatten (files : list json) : Loading (list FlatRecord) :=
  match files with
  | [] => mret []
  | top :: rest =>
      rs ← flatten_file top;
      rs' ← flatten rest;
      mret (rs ++ rs')
  end.

(** ** The popup

    [str.replace] and [html.escape], and the text of lines 118-130. *)

(** What follows [old] when [s] starts with it. *)
Fixpoint strip_prefix (old s : str) : option str :=
  match old, s with
  | [], _ => Some s
  | _ :: _, [] => None
  | o :: old', c :: s' => if (o =? c)%N then strip_prefix old' s' else None
  end.

Lemma strip_prefix_length old s rest :
  strip_prefix old s = Some rest → length s = length old + length rest.
Proof.
  revert s. induction old as [|o old IH]; intros [|c s]; simpl;
    try discriminate; try (by intros [= <-]).
  destruct (o =? c)%N; [|discriminate]. intros H. apply IH in H. lia.
Qed.

(** [s.replace(old, new)] for an [old] that is not empty, here [o :: old']:
    from the left, every occurrence that does not overlap the one
    before. *)
Equations replace_scan (o : N) (old' new s : str) : str by wf (length s) lt :=
  replace_scan o old' new [] := [];
  replace_scan o old' new (c :: r)
    with inspect (strip_prefix (o :: old') (c :: r)) := {
    | exist _ (Some rest) _ := new ++ replace_scan o old' new rest;
    | exist _ None _ := c :: replace_scan o old' new r }.
Next Obligation.
  match goal with H : _ = Some ?rest |- _ =>
    change (strip_prefix (o :: old') (c :: r) = Some rest) in H;
    apply strip_prefix_length in H; simpl in H; lia end.
Qed.

(** [s.replace(old, new)]; an empty [old] matches before each character
    and at the end. *)
Definition replace (old new s : str) : str :=
  match old with
  | [] => new ++ flat_map (λ c, c :: new) s
  | o :: old' => replace_scan o old' new s
  end.

Definition dquote : N := 34%N.
Definition newline : N := 10%N.
Definition em_dash : N := 8212%N.

(** [html.escape(s)], with [quote=True]: five replacements, the ampersand
    first. *)
Definition html_escape (s : str) : str :=
  let s := replace (py "&") (py "&amp;") s in
  let s := replace (py "<") (py "&lt;") s in
  let s := replace (py ">") (py "&gt;") s in
  let s := replace [dquote] (py "&quot;") s in
  replace (py "'") (py "&#x27;") s.

(** Line 118. *)
Definition thumb_of (img_full : str) : str :=
  replace (py ".jpg") (py "-thumb.jpg") img_full.

(** Lines 119-130, the f-string. *)
Definition popup_html (row : FlatRecord) : str :=
  let img_full := imageurl row in
  let thumb := thumb_of img_full in
  [newline]
  ++ py "      <div style='width:240px'>" ++ [newline]
  ++ py "        <a href=" ++ [dquote] ++ html_escape img_full ++ [dquote]
  ++ py " target=" ++ [dquote] ++ py "_blank" ++ [dquote] ++ py ">"
  ++ [newline]
  ++ py "          <img src=" ++ [dquote] ++ html_escape thumb ++ [dquote]
  ++ py " style=" ++ [dquote] ++ py "width:100%; border-radius:6px"
  ++ [dquote] ++ py ">" ++ [newline]
  ++ py "        </a><br>" ++ [newline]
  ++ py "        <b>" ++ html_escape (or_default (name row) (py "Khachkar"))
  ++ py "</b><br>" ++ [newline]
  ++ py "        <i>" ++ html_escape (or_default (location row) (place row))
  ++ py "</i><br>" ++ [newline]
  ++ py "        Date: " ++ html_escape (or_default (date row) [em_dash])
  ++ py "<br>" ++ [newline]
  ++ py "        Sculptor: "
  ++ html_escape (or_default (sculptor row) [em_dash])
  ++ py "<br>" ++ [newline]
  ++ py "        " ++ html_escape (description row) ++ [newline]
  ++ py "      </div>" ++ [newline]
  ++ py "    ".

(** How often a character occurs in a string. *)
Definition count (c : N) (s : str) : nat :=
  length (filter (λ x, x = c) s).

(** The character that replaces nothing but itself, or the entity of one of
    the five characters that [html.escape] replaces. *)
Definition escape_char (c : N) : str :=
  if decide (c = 38%N) then py "&amp;"
  else if decide (c = 60%N) then py "&lt;"
  else if decide (c = 62%N) then py "&gt;"
  else if decide (c = dquote) then py "&quot;"
  else if decide (c = 39%N) then py "&#x27;"
  else [c].

(** ** Vocabulary of the statements on loading *)

(** A value on which [(x or "").strip()] does not fail: a string, or a
    value that [or] takes for false. *)
Definition text_like (v : json) : bool :=
  match v with
  | JStr _ => true
  | _ => negb (truthy v)
  end.

Definition field_ok (items : list (str * json)) (key : string) : bool :=
  match dict_get (py key) items with
  | Some v => text_like v
  | None => true
  end.

(** The text that a key contributes: the stripped string that the dict has
    there, and the empty string when it has none. *)
Definition text_at (items : list (str * json)) (key : string) : str :=
  match dict_get (py key) items with
  | Some (JStr s) => strip s
  | _ => []
  end.

Definition khachkar_keys : list string :=
  ["ImageUrl"; "Name"; "Location"; "Origin"; "Sculptor"; "Date";
   "Description"; "Source"]%string.

Definition dict_items (v : json) : list (str * json) :=
  match v with
  | JDict items => items
  | _ => []
  end.

Definition khachkar_ok (k : json) : bool :=
  match k with
  | JDict items => forallb (field_ok items) khachkar_keys
  | _ => false
  end.

Definition record_of (place site : str) (k : json) : FlatRecord :=
  let items := dict_items k in
  {| place := place; site := site;
     imageurl := text_at items "ImageUrl"; name := text_at items "Name";
     location := text_at items "Location"; origin := text_at items "Origin";
     sculptor := text_at items "Sculptor"; date := text_at items "Date";
     description := text_at items "Description";
     source := text_at items "Source" |}.

(** What line 30 iterates over in a file whose items are [items]. *)
Definition khachkars_of (items : list (str * json)) : Loading (list json) :=
  iterate (default (JList []) (dict_get (py "Khachkars") items)).

(** A file that lines 27-42 go through without an exception. *)
Definition file_ok (top : json) : bool :=
  match top with
  | JDict items =>
      field_ok items "Place" && field_ok items "Site"
      && match khachkars_of items with
         | Got khachkars => forallb khachkar_ok khachkars
         | Failed _ => false
         end
  | _ => false
  end.

Definition records_of_file (top : json) : list FlatRecord :=
  let items := dict_items top in
  match khachkars_of items with
  | Got khachkars =>
      record_of (text_at items "Place") (text_at items "Site") <$> khachkars
  | Failed _ => []
  end.

(** The ten fields of a record. *)
Definition fields (r : FlatRecord) : list str :=
  [place r; site r; imageurl r; name r; location r; origin r; sculptor r;
   date r; description r; source r].

(** A string that neither starts nor ends with white space. *)
Definition stripped (s : str) : Prop :=
  ∀ c, head s = Some c ∨ last s = Some c → isspace c = false.

(** ** The whole script

    Lines 23-137: the files are flattened, and the run is made on the
    records. An exception while flattening comes before anything is
    printed. *)

Inductive Crash :=
  | LoadCrash (e : LoadError)
  | RunCrash (e : Exn).

Section script.
Context {Service File : Type}.
Variable geocoder : str → Service → option Location * Service.
Variable read_csv : File → list Row.
Variable to_csv : list Row → File.
Variable mean : list float → float.

Definition script (files : list json)
  : M (Service := Service) (File := File) (Crash + Outcome) := λ w,
  match flatten files with
  | Failed e => (inl (LoadCrash e), w)
  | Got records =>
      match run geocoder read_csv to_csv mean records w with
      | (Raise e, w') => (inl (RunCrash e), w')
      | (Ok o, w') => (inr o, w')
      end
  end.
End script.

(** [old] occurs somewhere in [s]. *)
Definition occurs (old s : str) : Prop := ∃ a b, s = a ++ old ++ b.

(** The five characters that [html.escape] replaces. *)
Definition html_special (c : N) : Prop :=
  c = 38%N ∨ c = 60%N ∨ c = 62%N ∨ c = dquote ∨ c = 39%N.

(** ** Vocabulary of the statements on the table of line 105 *)

(** The cache has both coordinates of the location of a record. *)
Definition has_coords (cache : gmap str (float * float)) (r : FlatRecord)
  : bool :=
  match cache !! location r with
  | Some (la, lo) => negb (PrimFloat.is_nan la || PrimFloat.is_nan lo)
  | None => false
  end.

(** A table whose only row has lost its coordinates. *)
Definition blank_row_table : list Row :=
  [{| query := Some (py "Sevan");
      lat := PrimFloat.nan; lon := PrimFloat.nan |}].

(** * Properties *)

(** ** The substitution *)

Lemma re_sub_match c r rest :
  match_at (c :: r) = Some rest → re_sub (c :: r) = re_sub rest.
Proof.
  intros H. simp re_sub.
  destruct (inspect (match_at (c :: r))) as [[rest'|] Ho]; simp re_sub;
    congruence.
Qed.

Lemma re_sub_keep c r :
  match_at (c :: r) = None → re_sub (c :: r) = c :: re_sub r.
Proof.
  intros H. simp re_sub.
  destruct (inspect (match_at (c :: r))) as [[rest'|] Ho]; simp re_sub;
    congruence.
Qed.

(** Induction along the scan of [re_sub]. *)
Lemma re_sub_scan_ind (P : str → str → Prop) :
  P [] [] →
  (∀ c r rest, match_at (c :: r) = Some rest →
     P rest (re_sub rest) → P (c :: r) (re_sub rest)) →
  (∀ c r, match_at (c :: r) = None →
     P r (re_sub r) → P (c :: r) (c :: re_sub r)) →
  ∀ s, P s (re_sub s).
Proof.
  intros Hnil Hm Hk s.
  remember (length s) as n eqn:Hn. revert s Hn.
  induction n as [n IH] using lt_wf_ind. intros [|c r] ->.
  - by simp re_sub.
  - destruct (match_at (c :: r)) as [rest|] eqn:E.
    + rewrite (re_sub_match _ _ _ E). apply Hm; [done|].
      apply (IH (length rest)); [by apply match_at_length|done].
    + rewrite (re_sub_keep _ _ E). apply Hk; [done|].
      apply (IH (length r)); [simpl; lia|done].
Qed.

Section cleaning.
Implicit Types (s t a b ws rest : str) (c x : N).

Lemma after_close_None s : after_close s = None ↔ rparen ∉ s.
Proof.
  induction s as [|c r IH]; simpl.
  - split; [intros _; apply not_elem_of_nil|done].
  - destruct (N.eqb_spec c rparen) as [->|Hne].
    + split; [done|]. intros H. destruct H. left.
    + rewrite IH, not_elem_of_cons. intuition congruence.
Qed.

Lemma after_close_Some s rest :
  after_close s = Some rest ↔ ∃ b, s = b ++ rparen :: rest ∧ rparen ∉ b.
Proof.
  revert rest. induction s as [|c r IH]; intros rest; simpl.
  - split; [done|]. intros ([|??] & ? & ?); discriminate.
  - destruct (N.eqb_spec c rparen) as [->|Hne].
    + split.
      * intros [= <-]. exists []. split; [done|apply not_elem_of_nil].
      * intros ([|y b] & Heq & Hb); simplify_eq/=; [done|].
        exfalso. apply Hb. left.
    + rewrite IH. split.
      * intros (b & -> & Hb). exists (c :: b). split; [done|].
        rewrite not_elem_of_cons. done.
      * intros ([|y b] & Heq & Hb); simplify_eq/=.
        exists b. split; [done|].
        rewrite not_elem_of_cons in Hb. tauto.
Qed.

Lemma skip_ws_split s : ∃ ws, s = ws ++ skip_ws s ∧ all_space ws.
Proof.
  induction s as [|c r (ws & Hr & Hws)]; simpl.
  - exists []. split; [done|constructor].
  - destruct (isspace c) eqn:E.
    + exists (c :: ws). split; [simpl; congruence|by constructor].
    + exists []. split; [done|constructor].
Qed.

Lemma skip_ws_head s c : head (skip_ws s) = Some c → isspace c = false.
Proof.
  induction s as [|y r IH]; simpl; [done|].
  destruct (isspace y) eqn:E; [done|]. simpl. by intros [= <-].
Qed.

Lemma skip_ws_all_space ws s : all_space ws → skip_ws (ws ++ s) = skip_ws s.
Proof. induction 1 as [|c ws Hc _ IH]; simpl; [done|]. by rewrite Hc. Qed.

Lemma skip_ws_nonspace c s : isspace c = false → skip_ws (c :: s) = c :: s.
Proof. simpl. by intros ->. Qed.

(** What a successful match consumes. *)
Lemma match_at_Some s rest :
  match_at s = Some rest ↔
  ∃ ws b, s = ws ++ lparen :: b ++ rparen :: rest ∧ all_space ws ∧ rparen ∉ b.
Proof.
  unfold match_at. split.
  - destruct (skip_ws_split s) as (ws & Hs & Hws).
    destruct (skip_ws s) as [|c r]; [done|].
    destruct (N.eqb_spec c lparen) as [->|]; [|done].
    intros (b & -> & Hb)%after_close_Some. by exists ws, b.
  - intros (ws & b & -> & Hws & Hb).
    rewrite skip_ws_all_space, skip_ws_nonspace by done.
    rewrite N.eqb_refl. apply after_close_Some. by exists b.
Qed.

Lemma re_sub_sublist s : re_sub s `sublist_of` s.
Proof.
  apply (re_sub_scan_ind (λ s out, out `sublist_of` s)).
  - done.
  - intros c r rest (ws & b & -> & _)%match_at_Some IH.
    etrans; [exact IH|].
    apply sublist_inserts_l. apply sublist_cons.
    apply sublist_inserts_l. by apply sublist_cons.
  - intros c r _ IH. by apply sublist_skip.
Qed.

(** No parenthetical segment is left by the substitution. *)
Lemma re_sub_no_segment s : ¬ has_segment (re_sub s).
Proof.
  apply (re_sub_scan_ind (λ _ out, ¬ has_segment out)).
  - intros ([|??] & ? & ? & ?); discriminate.
  - done.
  - intros c r Hm IH ([|y a] & b & c' & Heq); simplify_eq/=.
    + unfold match_at in Hm. rewrite skip_ws_nonspace in Hm by done.
      rewrite N.eqb_refl in Hm. apply after_close_None in Hm.
      apply Hm. eapply elem_of_sublist; [|apply re_sub_sublist].
      match goal with H : re_sub r = _ |- _ => rewrite H end. set_solver.
    + apply IH. by exists a, b, c'.
Qed.

Lemma re_sub_match_any s rest :
  match_at s = Some rest → re_sub s = re_sub rest.
Proof. destruct s; [done|apply re_sub_match]. Qed.

Lemma skip_ws_app_last t rest :
  t ≠ [] → (∀ y, last t = Some y → isspace y = false) →
  ∃ y t', skip_ws (t ++ rest) = y :: t' ++ rest ∧ y ∈ t.
Proof.
  induction t as [|y [|z t] IH]; intros Hne Hlast; [done|..].
  - exists y, []. simpl. rewrite (Hlast y) by done. split; [done|left].
  - change ((y :: z :: t) ++ rest) with (y :: (z :: t) ++ rest).
    destruct (isspace y) eqn:E.
    + destruct IH as (y' & t' & Heq & Hin); [done|exact Hlast|].
      exists y', t'. simpl in *. rewrite E. split; [done|by right].
    + exists y, (z :: t). rewrite skip_ws_nonspace by done.
      split; [done|left].
Qed.

(** The substitution on a text that starts with plain words followed by
    a segment: the words stay, the white space before the segment and
    the segment go, and the scan goes on right after the segment. *)
Lemma re_sub_segment a ws b rest :
  lparen ∉ a → (∀ x, last a = Some x → isspace x = false) →
  all_space ws → rparen ∉ b →
  re_sub (a ++ ws ++ lparen :: b ++ rparen :: rest) = a ++ re_sub rest.
Proof.
  intros Ha Hlast Hws Hb. induction a as [|x a IH].
  - apply re_sub_match_any, match_at_Some. by exists ws, b.
  - change ((x :: a) ++ ?t) with (x :: a ++ t).
    rewrite re_sub_keep.
    + simpl. f_equal. apply IH.
      * rewrite not_elem_of_cons in Ha. tauto.
      * intros y Hy. apply Hlast. destruct a; [done|exact Hy].
    + unfold match_at.
      destruct (skip_ws_app_last (x :: a)
                  (ws ++ lparen :: b ++ rparen :: rest))
        as (y & t' & Heq & Hin); [done|exact Hlast|].
      simpl in Heq. simpl. rewrite Heq.
      destruct (N.eqb_spec y lparen) as [->|]; [done|done].
Qed.

Lemma strip_split s :
  ∃ pre post, s = pre ++ strip s ++ post ∧ all_space pre ∧ all_space post.
Proof.
  destruct (skip_ws_split s) as (pre & Hs & Hpre).
  destruct (skip_ws_split (reverse (skip_ws s))) as (tl & Hr & Htl).
  exists pre, (reverse tl). split_and!.
  - rewrite Hs at 1. f_equal. unfold strip.
    rewrite <- reverse_app, <- Hr. by rewrite reverse_involutive.
  - done.
  - unfold all_space in *. rewrite Forall_forall in Htl |- *.
    intros x Hx. rewrite elem_of_reverse in Hx. auto.
Qed.

Lemma strip_no_segment s : ¬ has_segment s → ¬ has_segment (strip s).
Proof.
  intros Hs (a & b & c & Heq). apply Hs.
  destruct (strip_split s) as (pre & post & Hsplit & _).
  exists (pre ++ a), b, (c ++ post). rewrite Hsplit at 1. rewrite Heq.
  rewrite <- !app_assoc. simpl. by rewrite <- !app_assoc.
Qed.

Lemma skip_ws_last s c :
  last (skip_ws s) = Some c → last s = Some c.
Proof.
  destruct (skip_ws_split s) as (ws & Hs & _). intros H.
  rewrite Hs. destruct (skip_ws s) as [|y t]; [done|].
  rewrite last_app. by rewrite H.
Qed.

(** The stripped text neither starts nor ends with white space. *)
Lemma strip_ends s c :
  head (strip s) = Some c ∨ last (strip s) = Some c → isspace c = false.
Proof.
  unfold strip. intros [H|H].
  - rewrite head_reverse in H. apply skip_ws_last in H.
    rewrite last_reverse in H. by apply skip_ws_head in H.
  - rewrite last_reverse in H. by apply skip_ws_head in H.
Qed.

Lemma strip_parens_no_segment text : ¬ has_segment (strip_parens text).
Proof. apply strip_no_segment, re_sub_no_segment. Qed.
End cleaning.

(** A text without a segment is left as it is by the substitution, and a
    text that neither starts nor ends with white space by [strip]. *)
Lemma re_sub_id (s : str) : ¬ has_segment s → re_sub s = s.
Proof.
  induction s as [|c r IH]; intros Hs; [by simp re_sub|].
  rewrite re_sub_keep.
  - f_equal. apply IH. intros (a & b & c' & ->). apply Hs.
    by exists (c :: a), b, c'.
  - destruct (match_at (c :: r)) as [rest|] eqn:E; [|done].
    apply match_at_Some in E as (ws & b & Heq & _). destruct Hs.
    by exists ws, b, rest.
Qed.

Lemma skip_ws_id (s : str) :
  (∀ c, head s = Some c → isspace c = false) → skip_ws s = s.
Proof.
  destruct s as [|c r]; [done|]. intros H. apply skip_ws_nonspace. by apply H.
Qed.

Lemma strip_id (s : str) : stripped s → strip s = s.
Proof.
  intros H. unfold strip.
  rewrite (skip_ws_id s) by (intros c Hc; apply H; by left).
  rewrite skip_ws_id; [apply reverse_involutive|].
  intros c Hc. rewrite head_reverse in Hc. apply H. by right.
Qed.

(** ** The resolver *)

Section resolver_facts.
Context {Service File : Type}.
Variable geocoder : str → Service → option Location * Service.

Local Abbreviation World := (@World Service File).
Implicit Types (w : World) (q loc_raw : str) (qs : list str).

Lemma bind_unfold {A B} (m : M A) (k : A → M B) w :
  (m ≫= k) w = let '(a, w') := m w in k a w'.
Proof. reflexivity. Qed.

Lemma first_success_app qs qs' w :
  first_success geocoder (qs ++ qs') w =
  (found ← first_success geocoder qs;
   match found with
   | Some _ => mret found
   | None => first_success geocoder qs'
   end) w.
Proof.
  revert w. induction qs as [|q qs IH]; intros w; [done|].
  simpl. rewrite !bind_unfold.
  destruct (geocode geocoder q w) as [[f|] w1]; [done|].
  rewrite IH. by rewrite bind_unfold.
Qed.

Lemma try_countries_first_success loc_clean countries w :
  try_countries geocoder loc_clean countries w =
  first_success geocoder (qualified loc_clean <$> countries) w.
Proof.
  revert w. induction countries as [|c cs IH]; intros w; [done|].
  simpl. rewrite !bind_unfold.
  destruct (geocode geocoder _ w) as [[f|] w1]; [done|apply IH].
Qed.

Lemma first_success_singleton q w :
  first_success geocoder [q] w = geocode geocoder q w.
Proof.
  simpl. rewrite bind_unfold.
  by destruct (geocode geocoder q w) as [[f|] w1].
Qed.

(** The resolver tries its six queries in order, the first answer
    winning. *)
Lemma resolve_first_success loc_raw w :
  resolve geocoder loc_raw w = first_success geocoder (variants loc_raw) w.
Proof.
  unfold resolve, variants. rewrite first_success_app, !bind_unfold.
  rewrite try_countries_first_success.
  destruct (first_success _ _ w) as [[f|] w1]; [done|].
  by rewrite first_success_singleton.
Qed.

Lemma first_success_asked qs w :
  first_success geocoder qs w =
  (first_answer geocoder qs (service w), asked geocoder qs w).
Proof.
  revert w. induction qs as [|q qs IH]; intros w.
  - destruct w. unfold asked, issued, first_answer. simpl.
    by rewrite app_nil_r.
  - simpl. rewrite bind_unfold. unfold geocode at 1.
    unfold asked, issued, first_answer. simpl.
    destruct (geocoder q (service w)) as [[f|] s1] eqn:E; simpl.
    + done.
    + rewrite IH. unfold asked, issued, first_answer. simpl.
      by rewrite <- app_assoc.
Qed.

Lemma resolve_asked loc_raw w :
  resolve geocoder loc_raw w =
  (first_answer geocoder (variants loc_raw) (service w),
   asked geocoder (variants loc_raw) w).
Proof. by rewrite resolve_first_success, first_success_asked. Qed.
End resolver_facts.

Lemma omap_row_of_resolved cache l p todo :
  cache !! l = Some p →
  omap (row_of cache) (l :: todo) =
  {| query := Some l; lat := p.1; lon := p.2 |} :: omap (row_of cache) todo.
Proof. intros H. cbn. unfold row_of at 1. by rewrite H. Qed.

Lemma omap_row_of_unresolved cache l todo :
  cache !! l = None →
  omap (row_of cache) (l :: todo) = omap (row_of cache) todo.
Proof. intros H. cbn. unfold row_of at 1. by rewrite H. Qed.

Section answers_facts.
Context {Service : Type}.
Variable geocoder : str → Service → option Location * Service.
Implicit Types (qs : list str) (s : Service).

Lemma length_answers qs s : length (answers geocoder qs s) = length qs.
Proof. revert s. induction qs as [|q qs IH]; intros s; simpl; auto. Qed.

Lemma leading_failures_le (l : list (option Location)) :
  leading_failures l ≤ length l.
Proof. induction l as [|[f|] l IH]; simpl; lia. Qed.

Lemma leading_failures_before (l : list (option Location)) i :
  i < leading_failures l → l !! i = Some None.
Proof.
  revert i. induction l as [|[f|] l IH]; intros i; simpl; [lia..|].
  destruct i as [|i]; [done|]. intros H. apply IH. lia.
Qed.

Lemma leading_failures_at (l : list (option Location)) :
  leading_failures l < length l →
  ∃ f, l !! leading_failures l = Some (Some f).
Proof.
  induction l as [|[f|] l IH]; simpl; [lia|by eexists|].
  intros H. apply IH. lia.
Qed.

Lemma answers_never_found qs s :
  Forall (never_found geocoder) qs →
  answers geocoder qs s = replicate (length qs) None.
Proof.
  intros H. revert s. induction H as [|q qs Hq _ IH]; intros s; [done|].
  simpl. by rewrite Hq, IH.
Qed.

Lemma leading_failures_replicate n :
  leading_failures (replicate n None) = n.
Proof. induction n; simpl; auto. Qed.

Lemma issued_never_found qs s :
  Forall (never_found geocoder) qs → issued geocoder qs s = qs.
Proof.
  intros H. unfold issued.
  rewrite answers_never_found, leading_failures_replicate by done.
  apply take_ge. lia.
Qed.

Lemma first_answer_never_found qs s :
  Forall (never_found geocoder) qs → first_answer geocoder qs s = None.
Proof.
  intros H. unfold first_answer.
  rewrite answers_never_found, leading_failures_replicate by done.
  rewrite lookup_ge_None_2; [done|]. by rewrite length_replicate.
Qed.

Lemma issued_length qs s :
  qs ≠ [] → 0 < length (issued geocoder qs s) ≤ length qs.
Proof.
  intros Hqs. unfold issued. rewrite length_take.
  destruct qs; [done|]. simpl. lia.
Qed.
End answers_facts.

(** ** The resolution loop *)

Section loop_facts.
Context {Service File : Type}.
Variable geocoder : str → Service → option Location * Service.

Local Abbreviation World := (@World Service File).
Implicit Types (w : World) (l loc_raw : str) (todo : list str).
Implicit Types (c : gmap str (float * float)) (rows : list Row).

Lemma resolve_step_found c rows l w f :
  first_answer geocoder (variants l) (service w) = Some f →
  resolve_step geocoder (c, rows) l w =
  ((<[l := (latitude f, longitude f)]> c,
    rows ++ [{| query := Some l; lat := latitude f; lon := longitude f |}]),
   asked geocoder (variants l) w).
Proof.
  intros H. unfold resolve_step. rewrite bind_unfold, resolve_asked.
  by rewrite H.
Qed.

Lemma resolve_step_failed c rows l w :
  first_answer geocoder (variants l) (service w) = None →
  resolve_step geocoder (c, rows) l w =
  ((c, rows),
   (print (CouldntGeocode l) (asked geocoder (variants l) w)).2).
Proof.
  intros H. unfold resolve_step. rewrite bind_unfold, resolve_asked.
  by rewrite H.
Qed.

Lemma resolve_all_cons (st : gmap str (float * float) * list Row) l todo w :
  resolve_all geocoder st (l :: todo) w =
  resolve_all geocoder (resolve_step geocoder st l w).1 todo
    (resolve_step geocoder st l w).2.
Proof.
  simpl. rewrite bind_unfold. by destruct (resolve_step geocoder st l w).
Qed.

(** The loop does not touch the storage artifact. *)
Lemma resolve_all_disk c rows todo w :
  disk (resolve_all geocoder (c, rows) todo w).2 = disk w ∧
  writes (resolve_all geocoder (c, rows) todo w).2 = writes w.
Proof.
  revert c rows w. induction todo as [|l todo IH]; intros c rows w; [done|].
  simpl. rewrite bind_unfold.
  destruct (first_answer geocoder (variants l) (service w)) as [f|] eqn:E.
  - rewrite (resolve_step_found _ _ _ _ _ E).
    split; [rewrite (proj1 (IH _ _ _))|rewrite (proj2 (IH _ _ _))]; done.
  - rewrite (resolve_step_failed _ _ _ _ E).
    split; [rewrite (proj1 (IH _ _ _))|rewrite (proj2 (IH _ _ _))]; done.
Qed.

(** The live calls of the loop: one block of queries per location, in
    the order of the list, each block being the queries of that location
    up to its first answer. *)
Lemma resolve_all_issued c rows todo w :
  calls (resolve_all geocoder (c, rows) todo w).2
    = calls w ++ all_issued geocoder todo (service w).
Proof.
  revert c rows w. induction todo as [|l todo IH]; intros c rows w.
  - simpl. by rewrite app_nil_r.
  - rewrite resolve_all_cons.
    destruct (first_answer geocoder (variants l) (service w)) as [f|] eqn:E.
    + rewrite (resolve_step_found _ _ _ _ _ E). cbn [fst snd].
      rewrite IH. simpl. by rewrite <- app_assoc.
    + rewrite (resolve_step_failed _ _ _ _ E). cbn [fst snd].
      rewrite IH. simpl. by rewrite <- app_assoc.
Qed.

(** A location of the list whose queries are never answered has all six
    of them sent, in a row. *)
Lemma all_issued_never_found todo s l :
  l ∈ todo → Forall (never_found geocoder) (variants l) →
  ∃ before after,
    all_issued geocoder todo s = before ++ variants l ++ after.
Proof.
  intros Hl Hnf. revert s.
  induction todo as [|l' todo IH]; intros s; [by apply elem_of_nil in Hl|].
  apply elem_of_cons in Hl as [<-|Hl].
  - exists [], (all_issued geocoder todo
                  (after_queries geocoder
                     (issued geocoder (variants l) s) s)).
    cbn [all_issued app]. by rewrite issued_never_found.
  - destruct (IH Hl (after_queries geocoder
                       (issued geocoder (variants l') s) s))
      as (before & after & Heq).
    exists (issued geocoder (variants l') s ++ before), after.
    cbn [all_issued]. rewrite Heq. by rewrite <- app_assoc.
Qed.


(** A location that is not in the list, or whose queries are never
    answered, keeps the cache entry it had. *)
Lemma resolve_all_lookup_kept c rows todo w k :
  k ∉ todo ∨ Forall (never_found geocoder) (variants k) →
  (resolve_all geocoder (c, rows) todo w).1.1 !! k = c !! k.
Proof.
  intros Hk. revert c rows w.
  induction todo as [|l todo IH]; intros c rows w; [done|].
  simpl. rewrite bind_unfold.
  destruct (first_answer geocoder (variants l) (service w)) as [f|] eqn:E.
  - rewrite (resolve_step_found _ _ _ _ _ E).
    rewrite IH.
    + apply lookup_insert_ne. intros ->. destruct Hk as [Hk|Hk].
      * apply Hk. left.
      * by rewrite first_answer_never_found in E.
    + destruct Hk as [Hk|Hk]; [left|by right].
      rewrite not_elem_of_cons in Hk. tauto.
  - rewrite (resolve_step_failed _ _ _ _ E). apply IH.
    destruct Hk as [Hk|Hk]; [left|by right].
    rewrite not_elem_of_cons in Hk. tauto.
Qed.

(** On a list of distinct locations that the cache does not know, the
    cache at the end tells which ones were resolved: those get a row, in
    order, and the others get a notice, in order. *)
Lemma resolve_all_fresh c rows todo w :
  NoDup todo → (∀ l, l ∈ todo → c !! l = None) →
  let r := resolve_all geocoder (c, rows) todo w in
  r.1.2 = rows ++ omap (row_of r.1.1) todo ∧
  stdout r.2 = stdout w ++ (CouldntGeocode <$> unresolved r.1.1 todo).
Proof.
  intros Hnd. revert c rows w.
  induction Hnd as [|l todo Hl Hnd IH]; intros c rows w Hfresh.
  - simpl. by rewrite !app_nil_r.
  - cbv zeta. rewrite resolve_all_cons.
    destruct (first_answer geocoder (variants l) (service w)) as [f|] eqn:E.
    + rewrite (resolve_step_found _ _ _ _ _ E). cbn [fst snd].
      set (c1 := <[l:=(latitude f, longitude f)]> c).
      set (rows1 := rows ++ _).
      set (w1 := asked geocoder (variants l) w).
      destruct (IH c1 rows1 w1) as [Hrows Hout].
      { intros l' Hl'. unfold c1. rewrite lookup_insert_ne.
        - apply Hfresh. by right.
        - by intros ->. }
      assert (Hfinal : (resolve_all geocoder (c1, rows1) todo w1).1.1 !! l
                       = Some (latitude f, longitude f)).
      { rewrite resolve_all_lookup_kept by (by left).
        apply lookup_insert_eq. }
      split.
      * rewrite Hrows. unfold rows1. rewrite <- app_assoc. f_equal.
        by rewrite (omap_row_of_resolved _ _ _ _ Hfinal).
      * rewrite Hout. unfold unresolved.
        rewrite filter_cons_False; [done|]. by rewrite Hfinal.
    + rewrite (resolve_step_failed _ _ _ _ E). cbn [fst snd].
      set (w1 := (print _ _).2).
      destruct (IH c rows w1) as [Hrows Hout].
      { intros l' Hl'. apply Hfresh. by right. }
      assert (Hfinal : (resolve_all geocoder (c, rows) todo w1).1.1 !! l
                       = None).
      { rewrite resolve_all_lookup_kept by (by left).
        apply Hfresh. left. }
      split.
      * rewrite Hrows. f_equal.
        by rewrite (omap_row_of_unresolved _ _ _ Hfinal).
      * rewrite Hout. unfold unresolved.
        rewrite filter_cons_True by done.
        unfold w1. simpl. by rewrite <- app_assoc.
Qed.
End loop_facts.

(** ** The order of [sorted] and the list of pending locations *)

Lemma str_leb_refl s : str_leb s s = true.
Proof.
  induction s as [|a s IH]; simpl; [done|].
  rewrite N.ltb_irrefl, N.eqb_refl. exact IH.
Qed.

Lemma str_leb_total s t : str_leb s t = true ∨ str_leb t s = true.
Proof.
  revert t. induction s as [|a s IH]; intros [|b t]; simpl; auto.
  destruct (N.ltb_spec a b), (N.ltb_spec b a); auto; try lia.
  assert (a = b) as -> by lia. rewrite N.eqb_refl. apply IH.
Qed.

Lemma str_leb_trans s t u :
  str_leb s t = true → str_leb t u = true → str_leb s u = true.
Proof.
  revert t u. induction s as [|a s IH]; intros [|b t] [|c u]; simpl; auto;
    try discriminate.
  destruct (N.ltb_spec a b), (N.ltb_spec b c), (N.ltb_spec a c);
    auto; try lia;
    destruct (N.eqb_spec a b), (N.eqb_spec b c), (N.eqb_spec a c);
    try discriminate; try lia; eauto.
Qed.

Lemma str_leb_antisym s t :
  str_leb s t = true → str_leb t s = true → s = t.
Proof.
  revert t. induction s as [|a s IH]; intros [|b t]; simpl; auto;
    try discriminate.
  destruct (N.ltb_spec a b), (N.ltb_spec b a),
    (N.eqb_spec a b), (N.eqb_spec b a);
    intros H1 H2; try discriminate; try lia.
  subst. f_equal. auto.
Qed.

#[global] Instance str_le_total : Total str_le.
Proof.
  intros s t. unfold str_le.
  destruct (str_leb_total s t) as [->| ->]; [left|right]; exact I.
Qed.

#[global] Instance str_le_trans : Transitive str_le.
Proof.
  intros s t u. unfold str_le. rewrite !Is_true_true. apply str_leb_trans.
Qed.

#[global] Instance str_le_antisym : AntiSymm (=) str_le.
Proof.
  intros s t. unfold str_le. rewrite !Is_true_true. apply str_leb_antisym.
Qed.

Section pending_facts.
Implicit Types (locations : list str) (cache : gmap str (float * float)).

Lemma pending_elem l locations cache :
  l ∈ pending locations cache ↔ l ∈ locations ∧ cache !! l = None.
Proof.
  unfold pending. rewrite merge_sort_Permutation, elem_of_elements.
  rewrite elem_of_difference, elem_of_list_to_set, not_elem_of_dom. done.
Qed.

Lemma pending_NoDup locations cache : NoDup (pending locations cache).
Proof.
  unfold pending. rewrite merge_sort_Permutation. apply NoDup_elements.
Qed.

Lemma pending_sorted locations cache :
  StronglySorted str_lt (pending locations cache).
Proof.
  pose proof (pending_NoDup locations cache) as Hnd.
  assert (Hs : StronglySorted str_le (pending locations cache))
    by apply (StronglySorted_merge_sort _).
  induction Hs as [|l rest Hs IH Hall]; [constructor|].
  apply NoDup_cons in Hnd as [Hl Hnd]. constructor; [by apply IH|].
  rewrite Forall_forall in Hall |- *. intros l' Hl'.
  split; [by apply Hall|]. by intros ->.
Qed.

(** The list depends on the records and on the cache only through the
    set of locations and the set of cached keys. *)
Lemma pending_set locations1 cache1 locations2 cache2 :
  (∀ l, l ∈ locations1 ↔ l ∈ locations2) →
  (∀ l, is_Some (cache1 !! l) ↔ is_Some (cache2 !! l)) →
  pending locations1 cache1 = pending locations2 cache2.
Proof.
  intros Hl Hc. unfold pending. f_equal. f_equal.
  apply set_eq. intros l.
  rewrite !elem_of_difference, !elem_of_list_to_set, !elem_of_dom.
  by rewrite Hl, Hc.
Qed.
End pending_facts.

(** ** One run *)

Section run_facts.
Context {Service File : Type}.
Variable geocoder : str → Service → option Location * Service.
Variable read_csv : File → list Row.
Variable to_csv : list Row → File.
Variable mean : list float → float.

Local Abbreviation World := (@World Service File).
Local Abbreviation run' := (run geocoder read_csv to_csv mean).
Implicit Types (w : World) (s : Service) (d : option File).
Implicit Types (records : list FlatRecord) (l k : str).

(** Without records the run stops at line 76, before any live call and
    before any write. *)
Lemma run_nil s d :
  run' [] (start s d) =
  (Raise (KeyError (py "location")),
   {| service := s; calls := []; stdout := [Loaded 0]; disk := d;
      writes := [] |}).
Proof. reflexivity. Qed.

Lemma run_cons r rs w :
  let records := r :: rs in
  let w1 := (print (Loaded (length records)) w).2 in
  let cache_df := table_on_disk read_csv (disk w) in
  let cache0 := initial_cache read_csv (disk w) in
  let res := resolve_all geocoder (cache0, [])
               (pending (location <$> records) cache0) w1 in
  let w2 := (persist to_csv cache_df res.1.2 res.2).2 in
  let df := dropna (with_coords res.1.1 <$> records) in
  run' records w =
  (if center_ok mean df
   then Ok {| cache := res.1.1; new_rows := res.1.2; df := df;
              rendered := markers df |}
   else Raise ValueError,
   (print (Geocoded (length df)) w2).2).
Proof.
  cbv zeta. unfold run, initial_cache, table_on_disk.
  unfold mbind, M_bind, load_cache_df, ret, mret, M_ret.
  cbn [print disk fst snd].
  destruct (resolve_all _ _ _ _) as [[c' rows'] w2]. cbn [fst snd].
  destruct (persist _ _ _ _) as [[] w3].
  by destruct (center_ok _ _).
Qed.

(** What a run on at least one record does, in terms of the list of
    pending locations: [o] is what the run has in hand when it reaches
    line 109, and what it returns when the centre of the map is a
    number. *)
Lemma run_summary records s d :
  records ≠ [] →
  let cache_df := table_on_disk read_csv d in
  let cache0 := initial_cache read_csv d in
  let todo := pending (location <$> records) cache0 in
  ∃ o W,
    run' records (start s d)
    = (if center_ok mean (df o) then Ok o else Raise ValueError, W) ∧
    (∀ k, k ∉ todo ∨ Forall (never_found geocoder) (variants k) →
          cache o !! k = cache0 !! k) ∧
    new_rows o = omap (row_of (cache o)) todo ∧
    df o = dropna (with_coords (cache o) <$> records) ∧
    rendered o = markers (df o) ∧
    calls W = all_issued geocoder todo s ∧
    stdout W = Loaded (length records)
                 :: (CouldntGeocode <$> unresolved (cache o) todo)
                 ++ [Geocoded (length (df o))] ∧
    (new_rows o = [] → disk W = d ∧ writes W = []) ∧
    (new_rows o ≠ [] →
       disk W = Some (to_csv (cache_df ++ new_rows o)) ∧
       writes W = [to_csv (cache_df ++ new_rows o)]) ∧
    (cache o, new_rows o) = (after_loop geocoder read_csv records s d).1.
Proof.
  intros Hne cache_df cache0 todo.
  destruct records as [|r rs]; [done|].
  rewrite run_cons. cbv zeta. cbn [disk start]. unfold after_loop.
  fold cache_df. fold cache0. fold todo.
  set (w1 := (print _ (start s d)).2).
  pose proof (resolve_all_fresh geocoder cache0 [] todo w1
                (pending_NoDup _ _)) as Hfresh.
  pose proof (resolve_all_issued geocoder cache0 [] todo w1) as Hcalls.
  pose proof (resolve_all_disk geocoder cache0 [] todo w1) as [Hdisk Hwr].
  pose proof (λ k, resolve_all_lookup_kept geocoder cache0 [] todo w1 k)
    as Hkept.
  destruct (resolve_all geocoder (cache0, []) todo w1)
    as [[c' rows'] w2] eqn:Eall.
  cbn [fst snd] in *.
  destruct Hfresh as [Hrows Hout].
  { intros l Hl. by apply pending_elem in Hl as [_ ?]. }
  eexists {| cache := c'; new_rows := rows';
             df := dropna (with_coords c' <$> r :: rs);
             rendered := markers (dropna (with_coords c' <$> r :: rs)) |}, _.
  split; [reflexivity|]. cbn [cache new_rows df rendered].
  split_and!; try done.
  - destruct rows'; cbn; by rewrite Hcalls.
  - destruct rows'; cbn; rewrite Hout; cbn; done.
  - intros ->. cbn. by rewrite Hdisk, Hwr.
  - intros Hrows'. destruct rows' as [|row rows']; [done|]. cbn.
    by rewrite Hwr.
Qed.

(** The same for a run that returns. *)
Lemma run_summary_Ok records s d o W :
  run' records (start s d) = (Ok o, W) →
  let cache_df := table_on_disk read_csv d in
  let cache0 := initial_cache read_csv d in
  let todo := pending (location <$> records) cache0 in
  records ≠ [] ∧
  (∀ k, k ∉ todo ∨ Forall (never_found geocoder) (variants k) →
        cache o !! k = cache0 !! k) ∧
  new_rows o = omap (row_of (cache o)) todo ∧
  df o = dropna (with_coords (cache o) <$> records) ∧
  rendered o = markers (df o) ∧
  calls W = all_issued geocoder todo s ∧
  stdout W = Loaded (length records)
               :: (CouldntGeocode <$> unresolved (cache o) todo)
               ++ [Geocoded (length (df o))] ∧
  (new_rows o = [] → disk W = d ∧ writes W = []) ∧
  (new_rows o ≠ [] →
     disk W = Some (to_csv (cache_df ++ new_rows o)) ∧
     writes W = [to_csv (cache_df ++ new_rows o)]) ∧
  (cache o, new_rows o) = (after_loop geocoder read_csv records s d).1 ∧
  center_ok mean (df o) = true.
Proof.
  intros Hrun. cbv zeta.
  assert (Hne : records ≠ []) by (intros ->; by rewrite run_nil in Hrun).
  destruct (run_summary records s d Hne)
    as (o' & W' & Hrun' & H1 & H2 & H3 & H4 & H5 & H6 & H7 & H8 & H9).
  rewrite Hrun in Hrun'.
  destruct (center_ok mean (df o')) eqn:Hc; [|discriminate Hrun'].
  injection Hrun' as <- <-. split_and!; done.
Qed.

End run_facts.

(** ** The fallback order *)

Section fallback_order.
Context {Service File : Type}.
Variable geocoder : str → Service → option Location * Service.

Local Abbreviation World := (@World Service File).

(** C1. The resolver sends the country-qualified queries in the order
    Armenia, Turkey, Georgia, Iran, Azerbaijan and then the cleaned string
    alone: with [k] the number of answers that fail before the first one
    that does not, exactly the first [k + 1] of these six queries are sent
    (all six when every answer fails), every answer before the last one is
    a failure, and the answer to the last query sent is the result. So the
    cleaned string alone is asked only after the five countries failed, and
    a location known in Georgia only is found by the third query, after
    Armenia and Turkey. *)
Theorem resolve_fallback_order (loc_raw : str) (w : World) :
  let clean := strip_parens loc_raw in
  let ans := answers geocoder (variants loc_raw) (service w) in
  let k := leading_failures ans in
  let r := resolve geocoder loc_raw w in
  variants loc_raw =
    [qualified clean (py "Armenia"); qualified clean (py "Turkey");
     qualified clean (py "Georgia"); qualified clean (py "Iran");
     qualified clean (py "Azerbaijan"); clean] ∧
  calls r.2 = calls w ++ take (S k) (variants loc_raw) ∧
  k ≤ 6 ∧
  (∀ i, i < k → ans !! i = Some None) ∧
  (k < 6 → ∃ f, ans !! k = Some (Some f) ∧ r.1 = Some f) ∧
  (k = 6 → r.1 = None) ∧
  (∀ f rest, ans = None :: None :: Some f :: rest →
     calls r.2 = calls w ++ [qualified clean (py "Armenia");
                             qualified clean (py "Turkey");
                             qualified clean (py "Georgia")] ∧
     r.1 = Some f).
Proof.
  intros clean ans k r.
  assert (Hlen : length ans = 6) by apply length_answers.
  assert (Hr : r = (mjoin (ans !! k), asked geocoder (variants loc_raw) w))
    by apply resolve_asked.
  split_and!.
  - reflexivity.
  - by rewrite Hr.
  - rewrite <- Hlen. apply leading_failures_le.
  - apply leading_failures_before.
  - intros Hk. destruct (leading_failures_at ans) as [f Hf]; [lia|].
    exists f. split; [done|]. rewrite Hr. cbn [fst]. unfold k.
    by rewrite Hf.
  - intros Hk. rewrite Hr. cbn [fst].
    rewrite lookup_ge_None_2; [done|lia].
  - intros f rest Hans. rewrite Hr. cbn [fst snd]. unfold k, asked, issued.
    cbn [calls]. fold ans. rewrite Hans. split; reflexivity.
Qed.
End fallback_order.

Lemma resolve_fallback_order_witness :
  let r := resolve knows_akhaltsikhe (py "Akhaltsikhe")
             (start (File := list Row) tt None) in
  calls r.2 = [py "Akhaltsikhe, Armenia"; py "Akhaltsikhe, Turkey";
               py "Akhaltsikhe, Georgia"] ∧
  r.1 = Some akhaltsikhe.
Proof.
  pose proof (resolve_fallback_order knows_akhaltsikhe (py "Akhaltsikhe")
                (start (File := list Row) tt None)) as H.
  cbv zeta in H. destruct H as (_ & _ & _ & _ & _ & _ & H).
  exact (H akhaltsikhe [None; None; None] eq_refl).
Defined.

(** ** The cache at the start of a run *)

Section cache_facts.
Implicit Types (rows : list Row) (q k : str) (p : float * float).
Implicit Types (c : gmap str (float * float)).

Lemma dict_of_rows_is_Some rows q :
  is_Some (dict_of_rows rows !! q) ↔ q ∈ string_queries rows.
Proof.
  unfold dict_of_rows, string_queries.
  assert (H : ∀ c, is_Some (foldl (λ d r, match query r with
                                          | Some q => <[q := (lat r, lon r)]> d
                                          | None => d
                                          end) c rows !! q)
                   ↔ is_Some (c !! q) ∨ q ∈ omap query rows).
  { induction rows as [|r rows IH]; intros c; cbn [foldl].
    - rewrite list_elem_of_omap. split; [by left|].
      intros [?|(? & []%elem_of_nil & _)]. done.
    - rewrite IH. cbn. destruct (query r) as [q'|]; [|reflexivity].
      rewrite elem_of_cons, lookup_insert_is_Some. split.
      + intros [[->|[? ?]]|?]; auto.
      + intros [?|[->|?]]; auto. destruct (decide (q' = q)); auto. }
  rewrite H, lookup_empty. split; [intros [[? [=]]|?]; done|by right].
Qed.




Lemma update_manual_None c k :
  update_manual c !! k = None ↔ MANUAL !! k = None ∧ c !! k = None.
Proof. unfold update_manual. apply lookup_union_None. Qed.

Lemma update_manual_empty : update_manual ∅ = MANUAL.
Proof. unfold update_manual. apply (right_id_L ∅ (∪)). Qed.
End cache_facts.

Section initial_cache_facts.
Context {File : Type}.
Variable read_csv : File → list Row.
Implicit Types (d : option File) (k l : str).

(** The locations that a run has to resolve: those that are neither a
    manual override nor a string query of the table on disk. *)
Lemma initial_cache_None d l :
  initial_cache read_csv d !! l = None ↔
  MANUAL !! l = None ∧ l ∉ string_queries (table_on_disk read_csv d).
Proof.
  unfold initial_cache.
  rewrite update_manual_None, (eq_None_not_Some (dict_of_rows _ !! l)).
  rewrite dict_of_rows_is_Some. reflexivity.
Qed.
End initial_cache_facts.

(** ** The manual overrides *)



Section manual_overrides.
Context {Service File : Type}.
Variable geocoder : str → Service → option Location * Service.
Variable read_csv : File → list Row.
Variable to_csv : list Row → File.
Variable mean : list float → float.

Local Abbreviation run' := (run geocoder read_csv to_csv mean).

End manual_overrides.


(** ** The order of the resolutions *)

Lemma pending_nil (cache : gmap str (float * float)) : pending [] cache = [].
Proof.
  apply elem_of_nil_inv. intros l [[]%elem_of_nil _]%pending_elem.
Qed.

Section resolution_order.
Context {Service File : Type}.
Variable geocoder : str → Service → option Location * Service.
Variable read_csv : File → list Row.
Variable to_csv : list Row → File.
Variable mean : list float → float.

Local Abbreviation run' := (run geocoder read_csv to_csv mean).

Lemma run_calls records (s : Service) (d : option File) :
  calls (run' records (start s d)).2 =
  all_issued geocoder
    (pending (location <$> records) (initial_cache read_csv d)) s.
Proof.
  destruct records as [|r rs]; [by rewrite run_nil, pending_nil|].
  destruct (run_summary geocoder read_csv to_csv mean (r :: rs) s d)
    as (o & W & -> & _ & _ & _ & _ & Hcalls & _); [done|].
  exact Hcalls.
Qed.

(** C10. The locations that a run resolves are the locations of the
    records that the cache does not know at the start, each of them
    once, in strictly increasing order of [sorted]; the queries sent to
    the service are, for each of these locations in that order, its
    queries up to the first answer. With the same service, two runs whose
    records have the same set of locations and whose caches know the same
    keys send the same queries. *)
Theorem resolution_once_sorted
    (records : list FlatRecord) (s : Service) (d : option File) :
  let todo := pending (location <$> records) (initial_cache read_csv d) in
  (∀ l, l ∈ todo ↔
        l ∈ location <$> records ∧ initial_cache read_csv d !! l = None) ∧
  NoDup todo ∧
  StronglySorted str_lt todo ∧
  calls (run' records (start s d)).2 = all_issued geocoder todo s ∧
  (∀ records' d',
     (∀ l, l ∈ location <$> records' ↔ l ∈ location <$> records) →
     (∀ l, is_Some (initial_cache read_csv d' !! l) ↔
           is_Some (initial_cache read_csv d !! l)) →
     calls (run' records' (start s d')).2
       = calls (run' records (start s d)).2).
Proof.
  intros todo. split_and!.
  - intros l. apply pending_elem.
  - apply pending_NoDup.
  - apply pending_sorted.
  - apply run_calls.
  - intros records' d' Hl Hc. rewrite !run_calls.
    f_equal. by apply pending_set.
Qed.
End resolution_order.

Lemma resolution_once_sorted_witness :
  let records := [stone_at "Sevan"; stone_at "Ani (Kars)"; stone_at "Sevan"] in
  let records' := [stone_at "Ani (Kars)"; stone_at "Sevan"] in
  calls (run knows_akhaltsikhe plain_read_csv plain_to_csv plain_mean records'
           (start tt None)).2
  = calls (run knows_akhaltsikhe plain_read_csv plain_to_csv plain_mean records
             (start tt None)).2.
Proof.
  intros records records'.
  pose proof (resolution_once_sorted knows_akhaltsikhe plain_read_csv
                plain_to_csv plain_mean records tt None) as H.
  cbv zeta in H. destruct H as (_ & _ & _ & _ & H).
  apply H.
  - intros l. unfold records, records'. cbn.
    rewrite !elem_of_cons. tauto.
  - reflexivity.
Defined.

(** ** Locations that cannot be resolved *)

Lemma dropna_location (cache : gmap str (float * float))
    (records : list FlatRecord) (row : MapRow) :
  row ∈ dropna (with_coords cache <$> records) →
  row_record row ∈ records ∧
  cache !! location (row_record row) = Some (row_lat row, row_lon row) ∧
  isna (Some (row_lat row)) = false ∧ isna (Some (row_lon row)) = false.
Proof.
  unfold dropna. rewrite list_elem_of_omap.
  intros (g & (r & -> & Hr)%list_elem_of_fmap & Hrow).
  unfold notna_row, with_coords in Hrow. cbn in Hrow.
  destruct (cache !! location r) as [[la lo]|] eqn:E; [|done]. cbn in Hrow.
  destruct (PrimFloat.is_nan la) eqn:Ela; [done|].
  destruct (PrimFloat.is_nan lo) eqn:Elo; [done|].
  cbn in Hrow. injection Hrow as <-. cbn. by rewrite E, Ela, Elo.
Qed.

(** C5. Two khachkars at two locations that no query resolves, no
    storage artifact: the six queries of each location are sent, a notice
    is printed for each, nothing is written, the count 0 is printed, and
    then line 110 raises on the centre of a table without rows, whatever
    the mean of the other columns is. The run does not go on. *)
Theorem all_unresolvable_run_fatal (mean : list float → float) :
  run knows_nothing plain_read_csv plain_to_csv mean
    [stone_at "Nowhere"; stone_at "Sevan"] (start tt None)
  = (Raise ValueError,
     {| service := tt;
        calls := variants (py "Nowhere") ++ variants (py "Sevan");
        stdout := [Loaded 2; CouldntGeocode (py "Nowhere");
                   CouldntGeocode (py "Sevan"); Geocoded 0];
        disk := None; writes := [] |}).
Proof. vm_compute. reflexivity. Qed.

(** ** The rows that a run appends *)

Lemma string_queries_app (rows1 rows2 : list Row) :
  string_queries (rows1 ++ rows2) = string_queries rows1 ++ string_queries rows2.
Proof. apply omap_app. Qed.

(** The rows appended for a list of locations have those locations that
    the cache knows as their queries, in the same order. *)
Lemma string_queries_row_of (cache : gmap str (float * float))
    (todo : list str) :
  string_queries (omap (row_of cache) todo)
  = filter (λ l, is_Some (cache !! l)) todo.
Proof.
  unfold string_queries. induction todo as [|l todo IH]; [done|].
  destruct (cache !! l) as [p|] eqn:E.
  - rewrite (omap_row_of_resolved _ _ _ _ E).
    rewrite filter_cons_True by (by rewrite E). cbn. by f_equal.
  - rewrite (omap_row_of_unresolved _ _ _ E).
    rewrite filter_cons_False; [done|]. rewrite E. by intros [? [=]].
Qed.

(** C4. A khachkar without a location, a service that answers the query
    made of the country alone, no storage artifact, the table written and
    read as [pandas] does. The first run prints no notice and writes one
    line, whose query is empty. The empty cell is read back as missing,
    so the second run does not find the empty location in the cache,
    sends the query again and appends the same row again: the file then
    has two lines with the same query. *)
Theorem empty_query_appended_twice :
  let records := [stone_at EmptyString] in
  let line := {| query_cell := []; lat_cell := 40.0691%float;
                 lon_cell := 45.0382%float |} in
  let r1 := run knows_armenia pandas_read_csv pandas_to_csv plain_mean
              records (start tt None) in
  let r2 := run knows_armenia pandas_read_csv pandas_to_csv plain_mean
              records (start tt (disk r1.2)) in
  stdout r1.2 = [Loaded 1; Geocoded 1] ∧
  disk r1.2 = Some [line] ∧
  calls r2.2 = [py ", Armenia"] ∧
  writes r2.2 = [[line; line]] ∧
  disk r2.2 = Some [line; line] ∧
  ¬ NoDup (query_cell <$> [line; line]).
Proof.
  cbv zeta. split_and!; try (vm_compute; reflexivity).
  intros [Hin _]%NoDup_cons. apply Hin. left.
Qed.

(** ** Run after run *)

Section after_a_run.
Context {Service File : Type}.
Variable geocoder : str → Service → option Location * Service.
Variable read_csv : File → list Row.
Variable to_csv : list Row → File.
Variable mean : list float → float.

Local Abbreviation run' := (run geocoder read_csv to_csv mean).
Implicit Types (records : list FlatRecord) (s : Service) (d : option File).

(** The table on disk after a run that returns: the one that was there
    when the run appended nothing, and otherwise what is read back of that
    table with the rows of the pending locations that the run resolved at
    its end. *)
Lemma table_after_run records s d o W :
  run' records (start s d) = (Ok o, W) →
  let todo := pending (location <$> records) (initial_cache read_csv d) in
  (string_queries (new_rows o) = filter (λ l, is_Some (cache o !! l)) todo) ∧
  ((new_rows o = [] ∧ disk W = d) ∨
   (new_rows o ≠ [] ∧
    table_on_disk read_csv (disk W)
    = read_csv (to_csv (table_on_disk read_csv d ++ new_rows o)))).
Proof.
  intros Hrun todo.
  destruct (run_summary_Ok geocoder read_csv to_csv mean _ _ _ _ _ Hrun)
    as (_ & _ & Hrows & _ & _ & _ & _ & Hnil & Hcons & _).
  split.
  - rewrite Hrows. apply string_queries_row_of.
  - destruct (new_rows o) as [|row rows] eqn:E.
    + left. by destruct Hnil.
    + right. destruct Hcons as [-> _]; done.
Qed.

(** What any run leaves, whether it returns or raises, in terms of the
    cache and the new rows that it has when the loop is over. *)
Lemma after_any_run records s d :
  let cache0 := initial_cache read_csv d in
  let todo := pending (location <$> records) cache0 in
  let st := (after_loop geocoder read_csv records s d).1 in
  let W := (run' records (start s d)).2 in
  (∀ k, k ∉ todo ∨ Forall (never_found geocoder) (variants k) →
        st.1 !! k = cache0 !! k) ∧
  string_queries st.2 = filter (λ l, is_Some (st.1 !! l)) todo ∧
  (∀ l, CouldntGeocode l ∈ stdout W ↔ l ∈ todo ∧ st.1 !! l = None) ∧
  ((st.2 = [] ∧ disk W = d ∧ writes W = []) ∨
   (st.2 ≠ [] ∧
    disk W = Some (to_csv (written_table geocoder read_csv records s d)) ∧
    writes W = [to_csv (written_table geocoder read_csv records s d)])).
Proof.
  intros cache0 todo st W. subst st W.
  destruct (decide (records = [])) as [->|Hne].
  { rewrite run_nil. unfold after_loop. subst todo.
    change (location <$> []) with (@nil str). rewrite !pending_nil.
    cbn [resolve_all ret mret M_ret fst snd stdout disk writes].
    split_and!; [done|done| |by left].
    intros l. rewrite list_elem_of_singleton, elem_of_nil. split; [done|].
    by intros [[] _]. }
  destruct (run_summary geocoder read_csv to_csv mean records s d Hne)
    as (o & W & -> & Hkept & Hrows & _ & _ & _ & Hout & Hnil & Hcons & Hst).
  rewrite <- Hst. cbn [fst snd]. fold cache0 todo in Hkept, Hrows, Hout.
  split_and!.
  - done.
  - rewrite Hrows. apply string_queries_row_of.
  - intros l. rewrite Hout, elem_of_cons, elem_of_app, list_elem_of_fmap.
    unfold unresolved. split.
    + intros [[=]|[(l' & [= <-] & [? ?]%list_elem_of_filter)|Hg]]; [done|].
      by apply list_elem_of_singleton in Hg.
    + intros [Hl Hnone]. right. left. exists l. split; [done|].
      by apply list_elem_of_filter.
  - unfold written_table. rewrite <- Hst. cbn [fst snd].
    destruct (new_rows o) as [|row rows] eqn:E.
    + left. by destruct Hnil.
    + right. destruct Hcons as [-> ->]; done.
Qed.
End after_a_run.

Section tried_again.
Context {Service File : Type}.
Variable geocoder : str → Service → option Location * Service.
Variable read_csv : File → list Row.
Variable to_csv : list Row → File.
Variable mean : list float → float.

Local Abbreviation run' := (run geocoder read_csv to_csv mean).
Implicit Types (records : list FlatRecord) (s : Service) (d : option File).

(** A location that no query resolves is unknown to the cache when the
    loop is over, and is no query of the table that the run writes. *)
Lemma unknown_after_loop records s d l :
  initial_cache read_csv d !! l = None →
  Forall (never_found geocoder) (variants l) →
  let st := (after_loop geocoder read_csv records s d).1 in
  st.1 !! l = None ∧
  (l ∉ string_queries st.2) ∧
  (l ∉ string_queries (written_table geocoder read_csv records s d)).
Proof.
  intros Hnone Hnf st.
  destruct (after_any_run geocoder read_csv to_csv mean records s d)
    as (Hkept & Hq & _). fold st in Hkept, Hq.
  assert (Hc : st.1 !! l = None) by (rewrite Hkept by (by right); done).
  assert (Hrows : l ∉ string_queries st.2).
  { rewrite Hq, list_elem_of_filter, Hc. by intros [[? [=]] _]. }
  split_and!; [done..|].
  unfold written_table. fold st.
  rewrite string_queries_app, elem_of_app.
  apply initial_cache_None in Hnone as [_ Hold]. tauto.
Qed.

(** It stays unknown through a run after which the table is read back
    without it. *)
Lemma unknown_after_run records s d l :
  initial_cache read_csv d !! l = None →
  Forall (never_found geocoder) (variants l) →
  not_invented geocoder read_csv to_csv mean l records [s] d →
  initial_cache read_csv (disk (run' records (start s d)).2) !! l = None.
Proof.
  intros Hnone Hnf [Hback _].
  destruct (unknown_after_loop records s d l Hnone Hnf) as (_ & _ & Hw).
  destruct (after_any_run geocoder read_csv to_csv mean records s d)
    as (_ & _ & _ & [(_ & -> & _)|(Hrows & -> & _)]); [done|].
  pose proof Hnone as [Hm _]%initial_cache_None.
  apply initial_cache_None. split; [done|]. cbn [table_on_disk].
  intros Hin. by apply Hw, Hback.
Qed.

Lemma unknown_after_runs records earlier d l :
  initial_cache read_csv d !! l = None →
  Forall (never_found geocoder) (variants l) →
  not_invented geocoder read_csv to_csv mean l records earlier d →
  initial_cache read_csv
    (disk_after_runs geocoder read_csv to_csv mean records earlier d) !! l
  = None.
Proof.
  intros Hnone Hnf. revert d Hnone.
  induction earlier as [|s earlier IH]; intros d Hnone Hback; [done|].
  cbn [disk_after_runs]. destruct Hback as [Hs Hrest].
  apply IH; [|done]. apply unknown_after_run; [done..|]. by split.
Qed.

(** C9. A location of the records that the cache does not know at the
    start and whose six queries are never answered is not in the cache
    when the loop is over, gets no row, and is no query string of the
    table that the run writes, if it writes one; this whether the run
    returns or raises on the centre of the map. So in every later run on
    the same records, each finding the storage artifact as the run before
    left it, all six queries of that location are sent again, in a row,
    as long as reading a table that was written back does not bring that
    string when the table does not hold it. *)
Theorem unresolvable_tried_again records d l :
  l ∈ location <$> records →
  initial_cache read_csv d !! l = None →
  Forall (never_found geocoder) (variants l) →
  (∀ s,
     let st := (after_loop geocoder read_csv records s d).1 in
     let r := run' records (start s d) in
     st.1 !! l = None ∧
     (l ∉ string_queries st.2) ∧
     (l ∉ string_queries (written_table geocoder read_csv records s d)) ∧
     (∀ f, f ∈ writes r.2 →
           f = to_csv (written_table geocoder read_csv records s d)) ∧
     (∀ o, r.1 = Ok o →
           cache o !! l = None ∧ l ∉ string_queries (new_rows o))) ∧
  (∀ earlier s,
     not_invented geocoder read_csv to_csv mean l records earlier d →
     let d' :=
       disk_after_runs geocoder read_csv to_csv mean records earlier d in
     ∃ before after,
       calls (run' records (start s d')).2 = before ++ variants l ++ after).
Proof.
  intros Hl Hnone Hnf. split.
  - intros s st r.
    destruct (unknown_after_loop records s d l Hnone Hnf) as (Hc & Hrows & Hw).
    fold st in Hc, Hrows. split_and!; [done..| |].
    + intros f Hf. subst r.
      destruct (after_any_run geocoder read_csv to_csv mean records s d)
        as (_ & _ & _ & [(_ & _ & Hwr)|(_ & _ & Hwr)]);
        rewrite Hwr in Hf.
      * by apply elem_of_nil in Hf.
      * by apply list_elem_of_singleton in Hf.
    + intros o Ho. subst r.
      destruct (run' records (start s d)) as [res W] eqn:Hrun.
      cbn [fst] in Ho. subst res.
      destruct (run_summary_Ok geocoder read_csv to_csv mean _ _ _ _ _ Hrun)
        as (_ & _ & _ & _ & _ & _ & _ & _ & _ & Hst & _).
      subst st. rewrite <- Hst in Hc, Hrows. done.
  - intros earlier s Hback d'.
    rewrite run_calls. apply all_issued_never_found; [|done].
    apply pending_elem. split; [done|].
    by apply unknown_after_runs.
Qed.
End tried_again.

Section second_run.
Context {Service File : Type}.
Variable geocoder : str → Service → option Location * Service.
Variable read_csv : File → list Row.
Variable to_csv : list Row → File.
Variable mean : list float → float.

Local Abbreviation run' := (run geocoder read_csv to_csv mean).
Implicit Types (records : list FlatRecord) (s : Service) (d : option File).

(** C2, amended. When the first run printed no notice of a location it
    could not geocode and, if it wrote the table, every location of the
    records that is a query string of the table it wrote is read back
    from it: a second run on the same records that finds the storage
    artifact as the first one left it sends no query at all, whatever
    state the service is in. *)
Theorem second_run_no_calls records s1 d s2 :
  let W1 := (run' records (start s1 d)).2 in
  let written := written_table geocoder read_csv records s1 d in
  (∀ l, CouldntGeocode l ∉ stdout W1) →
  ((after_loop geocoder read_csv records s1 d).1.2 ≠ [] →
   ∀ l, l ∈ location <$> records →
        l ∈ string_queries written →
        l ∈ string_queries (read_csv (to_csv written))) →
  calls (run' records (start s2 (disk W1))).2 = [].
Proof.
  intros W1 written Hquiet Hback. subst W1.
  destruct (after_any_run geocoder read_csv to_csv mean records s1 d)
    as (_ & Hq & Hnotice & Hdisk).
  set (st := (after_loop geocoder read_csv records s1 d).1) in *.
  rewrite run_calls.
  replace (pending (location <$> records)
             (initial_cache read_csv
                (disk (run' records (start s1 d)).2)))
    with (@nil str); [done|].
  symmetry. apply elem_of_nil_inv. intros l [Hl Hnone]%pending_elem.
  apply initial_cache_None in Hnone as [Hm Hnew].
  assert (Hin : l ∈ string_queries (table_on_disk read_csv d)
                ∨ l ∈ string_queries st.2).
  { destruct (decide (l ∈ string_queries (table_on_disk read_csv d)))
      as [|Hold]; [by left|right].
    assert (Htodo : l ∈ pending (location <$> records)
                          (initial_cache read_csv d)).
    { apply pending_elem. split; [done|]. by apply initial_cache_None. }
    destruct (st.1 !! l) as [p|] eqn:Ec.
    - rewrite Hq. apply list_elem_of_filter. split; [by eexists|done].
    - destruct (Hquiet l). by apply Hnotice. }
  destruct Hdisk as [(Hnil & Hd & _)|(Hrows & Hd & _)]; rewrite Hd in Hnew.
  - rewrite Hnil in Hin. destruct Hin as [?|[]%elem_of_nil]. done.
  - apply Hnew. cbn [table_on_disk]. apply (Hback Hrows l Hl).
    unfold written, written_table. fold st.
    by rewrite string_queries_app, elem_of_app.
Qed.
End second_run.

Lemma unresolvable_tried_again_witness :
  let records := [cross_stone_1; stone_at "Nowhere"] in
  let r := run knows_nothing plain_read_csv plain_to_csv plain_mean
             records (start tt None) in
  (∀ o, r.1 = Ok o →
        cache o !! py "Nowhere" = None
        ∧ py "Nowhere" ∉ string_queries (new_rows o)) ∧
  ∃ before after,
    calls (run knows_nothing plain_read_csv plain_to_csv plain_mean
             records
             (start tt (disk_after_runs knows_nothing plain_read_csv
                          plain_to_csv plain_mean records [tt; tt]
                          None))).2
    = before ++ variants (py "Nowhere") ++ after.
Proof.
  intros records.
  destruct (unresolvable_tried_again knows_nothing plain_read_csv
              plain_to_csv plain_mean records None (py "Nowhere"))
    as [Hrun Hlater].
  - cbn. rewrite !elem_of_cons. tauto.
  - reflexivity.
  - unfold variants. cbn. repeat constructor.
  - split.
    + apply (Hrun tt).
    + apply (Hlater [tt; tt] tt). cbn. split_and!; auto.
Defined.

Lemma second_run_no_calls_witness :
  let records := [stone_at "Akhaltsikhe"; cross_stone_1] in
  let W1 := (run knows_akhaltsikhe plain_read_csv plain_to_csv plain_mean
               records (start tt None)).2 in
  calls W1 = [py "Akhaltsikhe, Armenia"; py "Akhaltsikhe, Turkey";
              py "Akhaltsikhe, Georgia"] ∧
  calls (run knows_akhaltsikhe plain_read_csv plain_to_csv plain_mean
           records (start tt (disk W1))).2 = [].
Proof.
  intros records W1. split; [vm_compute; reflexivity|].
  apply (second_run_no_calls knows_akhaltsikhe plain_read_csv plain_to_csv
           plain_mean records tt None tt).
  - intros l Hin. vm_compute in Hin.
    repeat (apply elem_of_cons in Hin as [Hin|Hin]; [discriminate Hin|]).
    by apply elem_of_nil in Hin.
  - intros _ l _ Hin. exact Hin.
Defined.

(** C2 as stated fails: the first run returns, with a row for the
    location that it resolved and a notice for the one that no query
    resolves; that one is not in the cache, and the second run, which
    finds the table that the first one wrote, sends its six queries
    again. *)
Lemma second_run_calls_again :
  let records := [stone_at "Akhaltsikhe"; stone_at "Nowhere"] in
  let r1 := run knows_akhaltsikhe plain_read_csv plain_to_csv plain_mean
              records (start tt None) in
  let W2 := (run knows_akhaltsikhe plain_read_csv plain_to_csv plain_mean
               records (start tt (disk r1.2))).2 in
  match r1.1 with
  | Ok o =>
      string_queries (new_rows o) = [py "Akhaltsikhe"] ∧
      cache o !! py "Nowhere" = None
  | Raise _ => False
  end ∧
  disk r1.2 = Some [{| query := Some (py "Akhaltsikhe");
                       lat := 41.6390%float; lon := 42.9826%float |}] ∧
  calls W2 = [py "Nowhere, Armenia"; py "Nowhere, Turkey";
              py "Nowhere, Georgia"; py "Nowhere, Iran";
              py "Nowhere, Azerbaijan"; py "Nowhere"] ∧
  calls W2 ≠ [].
Proof.
  assert (H : calls (run knows_akhaltsikhe plain_read_csv plain_to_csv
                       plain_mean
                       [stone_at "Akhaltsikhe"; stone_at "Nowhere"]
                       (start tt
                          (disk (run knows_akhaltsikhe plain_read_csv
                                   plain_to_csv plain_mean
                                   [stone_at "Akhaltsikhe";
                                    stone_at "Nowhere"]
                                   (start tt None)).2))).2
              = [py "Nowhere, Armenia"; py "Nowhere, Turkey";
                 py "Nowhere, Georgia"; py "Nowhere, Iran";
                 py "Nowhere, Azerbaijan"; py "Nowhere"])
    by (vm_compute; reflexivity).
  cbv zeta. split_and!;
    [vm_compute; split; reflexivity|vm_compute; reflexivity|exact H|].
  rewrite H. discriminate.
Qed.

(** ** No storage artifact *)

Section absent_artifact.
Context {Service File : Type}.
Variable geocoder : str → Service → option Location * Service.
Variable read_csv : File → list Row.
Variable to_csv : list Row → File.
Variable mean : list float → float.

Local Abbreviation World := (@World Service File).
Local Abbreviation run' := (run geocoder read_csv to_csv mean).
Implicit Types (w : World) (d : option File) (todo : list str).

(** The loop neither reads nor writes the storage artifact. *)
Lemma resolve_all_with_disk
    (st : gmap str (float * float) * list Row) todo w d :
  resolve_all geocoder st todo (with_disk d w) =
  ((resolve_all geocoder st todo w).1,
   with_disk d (resolve_all geocoder st todo w).2).
Proof.
  revert st w. induction todo as [|l todo IH]; intros [c rows] w; [done|].
  rewrite !resolve_all_cons.
  destruct (first_answer geocoder (variants l) (service w)) as [f|] eqn:E.
  - rewrite (resolve_step_found _ _ _ _ _ _ E).
    rewrite (resolve_step_found _ c rows l (with_disk d w) f) by exact E.
    cbn [fst snd]. exact (IH _ (asked geocoder (variants l) w)).
  - rewrite (resolve_step_failed _ _ _ _ _ E).
    rewrite (resolve_step_failed _ c rows l (with_disk d w)) by exact E.
    cbn [fst snd].
    exact (IH _ (print (CouldntGeocode l)
                   (asked geocoder (variants l) w)).2).
Qed.

(** C8. Without a storage artifact the table is empty and the cache that
    the run starts with holds the manual overrides and nothing else. The
    run then goes as with an artifact whose table has no rows: same
    result, same queries, same lines printed, same tables written; the
    artifact at the end is the same too, unless nothing was written, in
    which case there is still none. *)
Theorem absent_artifact_like_empty
    (records : list FlatRecord) (s : Service) :
  table_on_disk read_csv None = [] ∧
  initial_cache read_csv None = MANUAL ∧
  ∀ f, read_csv f = [] →
    let a := run' records (start s None) in
    let b := run' records (start s (Some f)) in
    a.1 = b.1 ∧
    service a.2 = service b.2 ∧ calls a.2 = calls b.2 ∧
    stdout a.2 = stdout b.2 ∧ writes a.2 = writes b.2 ∧
    (disk a.2 = disk b.2 ∨
     (writes a.2 = [] ∧ disk a.2 = None ∧ disk b.2 = Some f)).
Proof.
  split_and!; [done|apply update_manual_empty|].
  intros f Hf a b. subst a b.
  destruct records as [|r rs].
  { rewrite !run_nil. cbn. split_and!; try done. by right. }
  rewrite !run_cons. cbv zeta. cbn [disk start].
  unfold initial_cache. cbn [table_on_disk]. rewrite Hf.
  set (cache0 := update_manual (dict_of_rows [])).
  set (todo := pending _ cache0).
  set (w1 := (print _ (start s None)).2).
  change (print (Loaded (length (r :: rs))) (start s (Some f))).2
    with (with_disk (Some f) w1).
  rewrite resolve_all_with_disk.
  destruct (resolve_all geocoder (cache0, []) todo w1)
    as [[c' rows'] w2] eqn:Eall.
  pose proof (resolve_all_disk geocoder cache0 [] todo w1) as [Hdisk Hwr].
  rewrite Eall in Hdisk, Hwr. cbn [fst snd] in *.
  destruct rows' as [|row rows']; cbn.
  - split_and!; try done. right. by rewrite Hwr, Hdisk.
  - split_and!; try done. by left.
Qed.
End absent_artifact.

Lemma absent_artifact_like_empty_witness :
  let records := [stone_at "Akhaltsikhe"; cross_stone_no_image] in
  let a := run knows_akhaltsikhe plain_read_csv plain_to_csv plain_mean records
             (start tt None) in
  let b := run knows_akhaltsikhe plain_read_csv plain_to_csv plain_mean records
             (start tt (Some [])) in
  a.1 = b.1 ∧
  service a.2 = service b.2 ∧ calls a.2 = calls b.2 ∧
  stdout a.2 = stdout b.2 ∧ writes a.2 = writes b.2 ∧
  (disk a.2 = disk b.2 ∨
   (writes a.2 = [] ∧ disk a.2 = None ∧ disk b.2 = Some [])).
Proof.
  intros records.
  pose proof (absent_artifact_like_empty knows_akhaltsikhe plain_read_csv
                plain_to_csv plain_mean records tt) as (_ & _ & H).
  exact (H [] eq_refl).
Defined.

(** ** The markers *)

Lemma omap_cons_unfold {A B} (f : A → option B) (x : A) (l : list A) :
  omap f (x :: l) = match f x with
                    | Some y => y :: omap f l
                    | None => omap f l
                    end.
Proof. reflexivity. Qed.

Lemma markers_expected
    (cache : gmap str (float * float)) (records : list FlatRecord) :
  markers (dropna (with_coords cache <$> records))
  = omap (expected_marker cache) records.
Proof.
  unfold markers, dropna. induction records as [|r rs IH]; [done|].
  rewrite fmap_cons, !omap_cons_unfold, <- IH.
  unfold expected_marker, notna_row, with_coords.
  cbn [record_lat record_lon record isna].
  destruct (cache !! location r) as [[la lo]|];
    cbn [fmap option_fmap option_map fst snd]; [|done].
  destruct (PrimFloat.is_nan la); cbn [orb]; [done|].
  destruct (PrimFloat.is_nan lo); cbn [orb]; [done|].
  rewrite omap_cons_unfold. unfold marker_of at 1.
  cbn [row_record row_lat row_lon].
  destruct (imageurl r) as [|c url] eqn:E; [done|].
  by rewrite decide_False by done.
Qed.

Section rendering.
Context {Service File : Type}.
Variable geocoder : str → Service → option Location * Service.
Variable read_csv : File → list Row.
Variable to_csv : list Row → File.
Variable mean : list float → float.

(** C7, amended. The markers of a run are, record by record and in the
    order of the records, one marker for every record whose location the
    cache knows at the end with coordinates that are numbers and whose
    image URL is not empty, at these coordinates and with the tooltip made
    of the name, or of "Khachkar" when the name is empty, an en dash between
    two spaces and the location; a record without an image gets no marker.
    In the end-to-end scenario no query is sent and there is one marker, at
    the manual coordinates, with the tooltip of that scenario. *)
Theorem one_marker_per_record_with_image :
  (∀ records (s : Service) (d : option File) o W,
     run geocoder read_csv to_csv mean records (start s d) = (Ok o, W) →
     rendered o = omap (expected_marker (cache o)) records) ∧
  (∀ r la lo,
     tooltip (marker_at r la lo)
     = or_default (name r) (py "Khachkar")
         ++ py " " ++ [en_dash] ++ py " " ++ location r ∧
     marker_location (marker_at r la lo) = (la, lo)) ∧
  (let r := run knows_nothing plain_read_csv plain_to_csv plain_mean
              [cross_stone_1]
              (start tt None) in
   calls r.2 = [] ∧
   match r.1 with
   | Ok o =>
       rendered o =
         [{| marker_location := (40.3874%float, 43.8733%float);
             tooltip := py "Cross Stone 1 " ++ [en_dash]
                          ++ py " Talin Kamsarakan (Talin)" |}]
   | Raise _ => False
   end).
Proof.
  split_and!.
  - intros records s d o W Hrun.
    destruct (run_summary_Ok geocoder read_csv to_csv mean _ _ _ _ _ Hrun)
      as (_ & _ & _ & Hdf & Hrend & _).
    rewrite Hrend, Hdf. apply markers_expected.
  - done.
  - vm_compute. done.
Qed.
End rendering.

Lemma one_marker_per_record_with_image_witness :
  let records := [cross_stone_no_image; stone_at "Akhaltsikhe"] in
  let r := run knows_akhaltsikhe plain_read_csv plain_to_csv plain_mean records
             (start tt None) in
  match r.1 with
  | Ok o => rendered o = omap (expected_marker (cache o)) records
  | Raise _ => False
  end.
Proof.
  cbv zeta.
  destruct (run knows_akhaltsikhe plain_read_csv plain_to_csv plain_mean
              [cross_stone_no_image; stone_at "Akhaltsikhe"] (start tt None))
    as [[o|e] W] eqn:E; cbn [fst].
  - exact (proj1 (one_marker_per_record_with_image knows_akhaltsikhe
                    plain_read_csv plain_to_csv plain_mean) _ _ _ _ _ E).
  - vm_compute in E. discriminate E.
Defined.

(** C7 as stated fails: a record without an image has its coordinates and
    gets no marker. *)
Lemma record_without_image_has_no_marker :
  let r := run knows_nothing plain_read_csv plain_to_csv plain_mean
             [cross_stone_no_image] (start tt None) in
  match r.1 with
  | Ok o =>
      df o = [{| row_record := cross_stone_no_image;
                 row_lat := 40.3874%float; row_lon := 43.8733%float |}] ∧
      rendered o = []
  | Raise _ => False
  end.
Proof. vm_compute. done. Qed.

(** ** The cleaning *)

(** C6, amended. The cleaning removes every segment that runs from an
    opening parenthesis to the next closing one, with the white space just
    before it, and then strips the white space at both ends. So: the
    cleaned string has no parenthetical segment left, neither starts nor
    ends with white space, and is what remains of the text once characters
    are removed; a text without a segment is only stripped; on a text made
    of words without an opening parenthesis, white space, a segment and a
    rest, the white space before the segment and the segment go, and the
    rest, together with the white space it starts with, loses its segments
    in the same way; stripping takes white space off both ends and nothing
    else. *)
Theorem strip_parens_cleaning :
  (∀ text, ¬ has_segment (strip_parens text)) ∧
  (∀ text c, head (strip_parens text) = Some c
             ∨ last (strip_parens text) = Some c → isspace c = false) ∧
  (∀ text, strip_parens text `sublist_of` text) ∧
  (∀ a ws b rest,
     lparen ∉ a → (∀ x, last a = Some x → isspace x = false) →
     all_space ws → rparen ∉ b →
     strip_parens (a ++ ws ++ lparen :: b ++ rparen :: rest)
     = strip (a ++ re_sub rest)) ∧
  strip_parens (py "Talin (Talin)") = py "Talin" ∧
  strip_parens (py "Haghartzin (Dilijan)") = py "Haghartzin" ∧
  (∀ text, ¬ has_segment text → strip_parens text = strip text) ∧
  (∀ text, ¬ has_segment text → re_sub text = text) ∧
  (∀ a ws b rest,
     lparen ∉ a → (∀ x, last a = Some x → isspace x = false) →
     all_space ws → rparen ∉ b →
     re_sub (a ++ ws ++ lparen :: b ++ rparen :: rest) = a ++ re_sub rest) ∧
  (∀ text, ∃ pre post,
     text = pre ++ strip text ++ post ∧ all_space pre ∧ all_space post) ∧
  (∀ text, stripped text → strip text = text).
Proof.
  split_and!.
  - apply strip_parens_no_segment.
  - intros text c. apply strip_ends.
  - intros text. unfold strip_parens.
    destruct (strip_split (re_sub text)) as (pre & post & Heq & _).
    etrans; [|apply re_sub_sublist]. rewrite Heq at 2.
    apply sublist_inserts_l, sublist_inserts_r. done.
  - intros a ws b rest Ha Hlast Hws Hb. unfold strip_parens.
    by rewrite re_sub_segment.
  - vm_compute. reflexivity.
  - vm_compute. reflexivity.
  - intros text Hs. unfold strip_parens. by rewrite re_sub_id.
  - apply re_sub_id.
  - apply re_sub_segment.
  - apply strip_split.
  - apply strip_id.
Qed.

Lemma strip_parens_cleaning_witness :
  strip_parens (py "A" ++ py " " ++ lparen :: py "b" ++ rparen :: py " C")
  = strip (py "A" ++ re_sub (py " C")) ∧
  strip_parens (py " Sevan ") = strip (py " Sevan ").
Proof.
  destruct strip_parens_cleaning as (_ & _ & _ & H & _ & _ & Hno & _).
  split.
  - apply H.
    + by apply (bool_decide_unpack _).
    + intros x [= <-]. reflexivity.
    + repeat constructor.
    + by apply (bool_decide_unpack _).
  - apply Hno. intros (a & b & c & Heq).
    assert (Hin : lparen ∈ py " Sevan ") by (rewrite Heq; set_solver).
    vm_compute in Hin.
    repeat (apply elem_of_cons in Hin as [Hin|Hin]; [discriminate Hin|]).
    by apply elem_of_nil in Hin.
Defined.

(** C6 as stated fails: the white space that follows a segment stays, and
    of a segment that holds another one only the part up to the first
    closing parenthesis goes. *)
Lemma strip_parens_keeps_following_space :
  strip_parens (py "A (b) C") = py "A C" ∧
  strip_parens_as_specified (py "A (b) C") = py "AC" ∧
  strip_parens (py "A (b) C") ≠ strip_parens_as_specified (py "A (b) C") ∧
  strip_parens (py "a (b (c) d)") = py "a d)".
Proof.
  assert (H1 : strip_parens (py "A (b) C") = py "A C")
    by (vm_compute; reflexivity).
  assert (H2 : strip_parens_as_specified (py "A (b) C") = py "AC")
    by (vm_compute; reflexivity).
  split_and!; [done|done| |vm_compute; reflexivity].
  rewrite H1, H2. discriminate.
Qed.

(** * Further properties *)

(** ** Loading and flattening *)

Lemma field_ok_text_field items key :
  text_field (JDict items) key
  = if field_ok items key then Got (text_at items key)
    else Failed AttributeError.
Proof.
  unfold text_field, field_ok, text_at, get. cbn.
  destruct (dict_get (py key) items) as [v|]; cbn; [|done].
  unfold or_empty. destruct v as [|[]|z|f|[|c s]|[|x l]|[|x l]]; cbn; try done.
  - by destruct (z =? 0)%Z.
  - by destruct (PrimFloat.eqb f 0).
Qed.

Lemma khachkar_record_spec place site k :
  khachkar_record place site k
  = if khachkar_ok k then Got (record_of place site k)
    else Failed AttributeError.
Proof.
  destruct k as [| | | | | |items]; try done.
  unfold khachkar_record, khachkar_ok, khachkar_keys, record_of.
  cbn [forallb dict_items]. rewrite !field_ok_text_field.
  repeat (match goal with
          | |- context [field_ok items ?key] =>
              destruct (field_ok items key); cbn; [|done]
          end).
  done.
Qed.

Lemma khachkar_records_spec place site khachkars :
  khachkar_records place site khachkars
  = if forallb khachkar_ok khachkars
    then Got (record_of place site <$> khachkars)
    else Failed AttributeError.
Proof.
  induction khachkars as [|k ks IH]; [done|].
  cbn [khachkar_records forallb]. rewrite khachkar_record_spec, IH.
  destruct (khachkar_ok k); cbn; [|done].
  by destruct (forallb khachkar_ok ks).
Qed.

Lemma flatten_file_spec top :
  (file_ok top = true → flatten_file top = Got (records_of_file top)) ∧
  (file_ok top = false → ∃ e, flatten_file top = Failed e).
Proof.
  destruct top as [| | | | | |items]; try (split; [done|by eexists]).
  unfold flatten_file, file_ok, records_of_file. cbn [dict_items].
  rewrite !field_ok_text_field.
  destruct (field_ok items "Place"); cbn; [|split; [done|by eexists]].
  destruct (field_ok items "Site"); cbn; [|split; [done|by eexists]].
  unfold khachkars_of.
  destruct (iterate _) as [ks|e]; cbn; [|split; [done|by eexists]].
  rewrite khachkar_records_spec.
  destruct (forallb khachkar_ok ks); split; try done. by eexists.
Qed.

Lemma flatten_spec (files : list json) :
  (forallb file_ok files = true →
   flatten files = Got (flat_map records_of_file files)) ∧
  (forallb file_ok files = false → ∃ e, flatten files = Failed e).
Proof.
  induction files as [|top files [IHok IHko]]; [split; [done|done]|].
  cbn [flatten forallb flat_map].
  destruct (flatten_file_spec top) as [Hok Hko].
  destruct (file_ok top); cbn [andb].
  - rewrite Hok by done. cbn [mbind Loading_bind].
    destruct (forallb file_ok files).
    + split; [|done]. intros _. by rewrite IHok.
    + split; [done|]. intros _. destruct IHko as [e ->]; [done|].
      by eexists.
  - split; [done|]. intros _. destruct Hko as [e ->]; [done|]. by eexists.
Qed.

Lemma flatten_Got (files : list json) (rs : list FlatRecord) :
  flatten files = Got rs →
  forallb file_ok files = true ∧ rs = flat_map records_of_file files.
Proof.
  intros H. destruct (flatten_spec files) as [Hok Hko].
  destruct (forallb file_ok files).
  - rewrite Hok in H by done. by injection H as <-.
  - destruct Hko as [e He]; [done|]. congruence.
Qed.

(** X1. Flattening succeeds exactly when every file is one that lines
    27-42 go through, and the records are then those of the files, file
    after file and khachkar after khachkar: each field is the stripped
    string found at its key, or the empty string. *)
Theorem flatten_exactly (files : list json) (rs : list FlatRecord) :
  flatten files = Got rs ↔
  forallb file_ok files = true ∧ rs = flat_map records_of_file files.
Proof.
  split; [apply flatten_Got|].
  intros [Hall ->]. by apply flatten_spec.
Qed.

(** X2. The files are flattened one after the other: the records of two
    lists of files are those of the first list followed by those of the
    second, and a failure in either list is a failure of the whole. *)
Theorem flatten_app (files1 files2 : list json) :
  flatten (files1 ++ files2)
  = (rs ← flatten files1; rs' ← flatten files2; mret (rs ++ rs')).
Proof.
  induction files1 as [|top files1 IH]; cbn.
  - by destruct (flatten files2).
  - rewrite IH. destruct (flatten_file top) as [rs0|e]; cbn; [|done].
    destruct (flatten files1) as [rs1|e]; cbn; [|done].
    destruct (flatten files2) as [rs2|e]; cbn; [|done].
    by rewrite app_assoc.
Qed.

Lemma stripped_nil : stripped [].
Proof. by intros c [?|?]. Qed.

Lemma stripped_strip (s : str) : stripped (strip s).
Proof. intros c. apply strip_ends. Qed.

Lemma stripped_text_at items key : stripped (text_at items key).
Proof.
  unfold text_at. destruct (dict_get (py key) items) as [[]|];
    auto using stripped_nil, stripped_strip.
Qed.

(** X3. No field of a flattened record starts or ends with white space. *)
Theorem flatten_fields_stripped
    (files : list json) (rs : list FlatRecord) (r : FlatRecord) (f : str) :
  flatten files = Got rs → r ∈ rs → f ∈ fields r → stripped f.
Proof.
  intros [_ ->]%flatten_Got Hr Hf.
  apply list_elem_of_In, in_flat_map in Hr as (top & _ & Hr).
  apply list_elem_of_In in Hr. unfold records_of_file in Hr.
  destruct (khachkars_of _) as [ks|]; [|by apply elem_of_nil in Hr].
  apply list_elem_of_fmap in Hr as (k & -> & _).
  unfold fields, record_of in Hf. cbn in Hf.
  repeat (apply elem_of_cons in Hf as [->|Hf];
          [apply stripped_text_at|]).
  by apply elem_of_nil in Hf.
Qed.

Lemma flatten_fields_stripped_witness :
  let files := [JDict [(py "Place", JStr (py "  Talin "));
                       (py "Khachkars",
                        JList [JDict [(py "Location",
                                       JStr (py " Talin (Talin)  "))]])]] in
  stripped (py "Talin (Talin)").
Proof.
  intros files.
  apply (flatten_fields_stripped files
           [record_of (py "Talin") [] (JDict [(py "Location",
                                       JStr (py " Talin (Talin)  "))])]
           (record_of (py "Talin") [] (JDict [(py "Location",
                                       JStr (py " Talin (Talin)  "))]))).
  - vm_compute. reflexivity.
  - left.
  - vm_compute. do 4 right. left.
Defined.

(** X4. A file whose place and site are fine and that has no "Khachkars"
    key gives no record; when the key is there with a value that cannot be
    iterated (null, a truth value, a number) the file fails with a
    TypeError; and no other file fails with a TypeError. *)
Theorem khachkars_absent_or_not_iterable (top : json) :
  (∀ items, top = JDict items →
     field_ok items "Place" = true → field_ok items "Site" = true →
     dict_get (py "Khachkars") items = None →
     flatten_file top = Got []) ∧
  (flatten_file top = Failed TypeError ↔
   ∃ items v,
     top = JDict items ∧
     field_ok items "Place" = true ∧ field_ok items "Site" = true ∧
     dict_get (py "Khachkars") items = Some v ∧
     match v with
     | JNull | JBool _ | JInt _ | JFloat _ => True
     | _ => False
     end).
Proof.
  split.
  - intros items -> Hp Hs Hk. unfold flatten_file.
    rewrite !field_ok_text_field, Hp, Hs. unfold get.
    rewrite Hk. reflexivity.
  - destruct top as [| | | | | |items];
      try (split; [done|by intros (? & ? & ? & _)]).
    unfold flatten_file. rewrite !field_ok_text_field. unfold get.
    set (value := dict_get (py "Khachkars") items).
    destruct (field_ok items "Place") eqn:Hp;
      [|split; [done|intros (? & ? & [= <-] & ? & _); congruence]].
    destruct (field_ok items "Site") eqn:Hs;
      [|split; [done|intros (? & ? & [= <-] & _ & ? & _); congruence]].
    cbn [mbind Loading_bind].
    destruct value as [v|] eqn:Hk; subst value; cbn [default from_option id].
    + destruct v as [|b|z|f|s|l|l]; cbn [iterate mbind Loading_bind];
        try (split; [intros _; by eexists items, _|done]);
        rewrite khachkar_records_spec;
        (split; [by destruct (forallb _ _)|
                 intros (? & ? & [= <-] & _ & _ & Hk' & ?);
                 rewrite Hk in Hk'; by injection Hk' as <-]).
    + cbn [iterate mbind Loading_bind]. split; [done|].
      intros (? & ? & [= <-] & _ & _ & Hk' & _). congruence.
Qed.

Lemma khachkars_absent_or_not_iterable_witness :
  flatten_file (JDict [(py "Place", JStr (py "Talin"))]) = Got [] ∧
  flatten_file (JDict [(py "Khachkars", JNull)]) = Failed TypeError.
Proof.
  split.
  - apply (proj1 (khachkars_absent_or_not_iterable _) _ eq_refl);
      reflexivity.
  - apply (proj2 (khachkars_absent_or_not_iterable _)).
    by exists [(py "Khachkars", JNull)], JNull.
Defined.

(** ** The whole script *)

Lemma center_ok_nil (mean : list float → float) : center_ok mean [] = false.
Proof. reflexivity. Qed.

Section script_facts.
Context {Service File : Type}.
Variable geocoder : str → Service → option Location * Service.
Variable read_csv : File → list Row.
Variable to_csv : list Row → File.
Variable mean : list float → float.

Local Abbreviation script' := (script geocoder read_csv to_csv mean).

(** X5. The script runs to its end exactly when every file can be
    flattened and the centre of the records that have coordinates is a
    number, which needs at least one such record. A failure while
    flattening comes before anything is printed, sent or written. Without
    any khachkar line 76 raises the KeyError, after the count 0 was
    printed and before any query. The only other failure is the
    ValueError of line 110: it comes after the queries of the run were
    sent and after the count of the rows kept was printed. *)
Theorem script_completes_or_fails
    (files : list json) (s : Service) (d : option File) :
  let r := script' files (start s d) in
  let records := flat_map records_of_file files in
  let table :=
    dropna (with_coords (after_loop geocoder read_csv records s d).1.1
              <$> records) in
  ((∃ o, r.1 = inr o) ↔
   forallb file_ok files = true ∧ center_ok mean table = true) ∧
  (∀ e, r.1 = inl (LoadCrash e) →
        forallb file_ok files = false ∧ r.2 = start s d) ∧
  (∀ e, r.1 = inl (RunCrash e) →
        forallb file_ok files = true ∧
        ((e = KeyError (py "location") ∧ records = [] ∧
          r.2 = {| service := s; calls := []; stdout := [Loaded 0];
                   disk := d; writes := [] |}) ∨
         (e = ValueError ∧ records ≠ [] ∧
          center_ok mean table = false ∧
          calls r.2
          = all_issued geocoder
              (pending (location <$> records) (initial_cache read_csv d)) s ∧
          last (stdout r.2) = Some (Geocoded (length table))))).
Proof.
  intros r records table. subst r. unfold script.
  destruct (flatten files) as [recs|e] eqn:E.
  - apply flatten_Got in E as [Hok ->]. fold records.
    destruct (decide (records = [])) as [Hnil|Hne].
    + assert (Htable : center_ok mean table = false).
      { subst table. rewrite Hnil. apply center_ok_nil. }
      rewrite Htable, Hnil, run_nil. cbn [fst snd]. split_and!.
      * split; [by intros [? [=]]|by intros [_ [=]]].
      * by intros e [=].
      * intros e [= <-]. split; [done|]. by left.
    + destruct (run_summary geocoder read_csv to_csv mean records s d Hne)
        as (o & W & Hrun & _ & _ & Hdf & _ & Hcalls & Hout & _ & _ & Hst).
      assert (Htable : table = df o).
      { subst table. rewrite <- Hst. cbn [fst]. by rewrite Hdf. }
      rewrite Hrun, Htable.
      destruct (center_ok mean (df o)) eqn:Hc; cbn [fst snd].
      * split_and!; [|by intros e [=]..]. split; [done|by eexists].
      * split_and!.
        -- split; [by intros [? [=]]|by intros [_ [=]]].
        -- by intros e [=].
        -- intros e [= <-]. split; [done|]. right. split_and!; try done.
           by rewrite Hout, app_comm_cons, last_snoc.
  - cbn [fst snd]. split_and!.
    + split; [by intros [? [=]]|]. intros [Hok _].
      pose proof (proj1 (flatten_spec files) Hok) as H. congruence.
    + intros e' _. split; [|done].
      destruct (forallb file_ok files) eqn:Hf; [|done].
      pose proof (proj1 (flatten_spec files) Hf) as H. congruence.
    + by intros e' [=].
Qed.
End script_facts.

Lemma script_completes_or_fails_witness :
  let r := script knows_nothing plain_read_csv plain_to_csv plain_mean
             [JDict [(py "Khachkars", JNull)]] (start tt (Some [])) in
  r.2 = start tt (Some []).
Proof.
  intros r.
  pose proof (script_completes_or_fails knows_nothing
                plain_read_csv plain_to_csv plain_mean
                [JDict [(py "Khachkars", JNull)]] tt (Some [])) as H.
  cbv zeta in H. destruct H as (_ & H & _).
  apply (H TypeError). reflexivity.
Defined.

(** ** Replacing and escaping *)

Lemma strip_prefix_Some (old s rest : str) :
  strip_prefix old s = Some rest ↔ s = old ++ rest.
Proof.
  revert s. induction old as [|o old IH]; intros [|c s]; cbn.
  - split; [by intros [= <-]|by intros <-].
  - split; [by intros [= <-]|by intros <-].
  - split; [done|discriminate].
  - destruct (N.eqb_spec o c) as [->|Hne].
    + rewrite IH. split; [by intros ->|by intros [= ->]].
    + split; [done|]. intros [= ??]. congruence.
Qed.

Lemma replace_scan_match o old' new c r rest :
  strip_prefix (o :: old') (c :: r) = Some rest →
  replace_scan o old' new (c :: r) = new ++ replace_scan o old' new rest.
Proof.
  intros H. simp replace_scan.
  destruct (inspect (strip_prefix (o :: old') (c :: r))) as [[rest'|] Ho];
    simp replace_scan; congruence.
Qed.

Lemma replace_scan_keep o old' new c r :
  strip_prefix (o :: old') (c :: r) = None →
  replace_scan o old' new (c :: r) = c :: replace_scan o old' new r.
Proof.
  intros H. simp replace_scan.
  destruct (inspect (strip_prefix (o :: old') (c :: r))) as [[rest'|] Ho];
    simp replace_scan; congruence.
Qed.

(** Replacing one character is a replacement character by character. *)
Lemma replace_char (x : N) (new s : str) :
  replace [x] new s = flat_map (λ c, if decide (c = x) then new else [c]) s.
Proof.
  unfold replace. induction s as [|c r IH]; [by simp replace_scan|].
  cbn [flat_map]. destruct (decide (c = x)) as [->|Hne].
  - rewrite (replace_scan_match _ _ _ _ _ r), IH; [done|].
    cbn. by rewrite N.eqb_refl.
  - rewrite replace_scan_keep, IH; [done|].
    cbn. destruct (N.eqb_spec x c); [congruence|done].
Qed.

Lemma escape_char_passes (c : N) :
  flat_map (λ c, if decide (c = 39%N) then py "&#x27;" else [c])
    (flat_map (λ c, if decide (c = dquote) then py "&quot;" else [c])
       (flat_map (λ c, if decide (c = 62%N) then py "&gt;" else [c])
          (flat_map (λ c, if decide (c = 60%N) then py "&lt;" else [c])
             (if decide (c = 38%N) then py "&amp;" else [c]))))
  = escape_char c.
Proof.
  unfold escape_char.
  destruct (decide (c = 38%N)) as [->|H1]; [reflexivity|].
  destruct (decide (c = 60%N)) as [->|H2]; [reflexivity|].
  destruct (decide (c = 62%N)) as [->|H3]; [reflexivity|].
  destruct (decide (c = dquote)) as [->|H4]; [reflexivity|].
  destruct (decide (c = 39%N)) as [->|H5]; [reflexivity|].
  cbn. rewrite !decide_False by done. cbn.
  rewrite !decide_False by done. cbn.
  rewrite !decide_False by done. cbn.
  by rewrite !decide_False by done.
Qed.

(** X6. The five replacements of [html.escape], made one after the other
    on the whole text, come to replacing each character of the text on its
    own: what an earlier replacement wrote is not touched by a later
    one. *)
Theorem html_escape_chars (s : str) :
  html_escape s = flat_map escape_char s.
Proof.
  unfold html_escape. cbv zeta.
  change (py "&") with [38%N]. change (py "<") with [60%N].
  change (py ">") with [62%N]. change (py "'") with [39%N].
  rewrite !replace_char.
  induction s as [|c r IH]; [done|].
  cbn [flat_map]. rewrite !flat_map_app, IH. f_equal.
  apply escape_char_passes.
Qed.

Lemma html_escape_nil : html_escape [] = [].
Proof. reflexivity. Qed.

Lemma html_escape_cons (c : N) (s : str) :
  html_escape (c :: s) = escape_char c ++ html_escape s.
Proof.
  unfold html_escape. cbv zeta.
  change (py "&") with [38%N]. change (py "<") with [60%N].
  change (py ">") with [62%N]. change (py "'") with [39%N].
  rewrite !replace_char. cbn [flat_map]. rewrite !flat_map_app. f_equal.
  apply escape_char_passes.
Qed.

Lemma escape_char_elem (c x : N) :
  x ∈ escape_char c → x ≠ 60%N ∧ x ≠ 62%N ∧ x ≠ dquote ∧ x ≠ 39%N.
Proof.
  unfold escape_char. repeat case_decide; subst; intros Hx;
    vm_compute in Hx;
    repeat (apply elem_of_cons in Hx as [->|Hx];
            [split_and!; try discriminate; auto|]);
    by apply elem_of_nil in Hx.
Qed.

Lemma html_escape_elem (s : str) (x : N) :
  x ∈ html_escape s → x ≠ 60%N ∧ x ≠ 62%N ∧ x ≠ dquote ∧ x ≠ 39%N.
Proof.
  induction s as [|c s IH];
    [rewrite html_escape_nil; by intros ?%elem_of_nil|].
  rewrite html_escape_cons, elem_of_app.
  intros [?|?]; [by eapply escape_char_elem|auto].
Qed.

(** X7. An escaped text holds none of the characters that open or close
    a tag or an attribute value (less-than, greater-than, double and single
    quote), and a text that has none of the five special characters is
    left as it is. *)
Theorem html_escape_safe :
  (∀ s x, x ∈ html_escape s →
          x ≠ 60%N ∧ x ≠ 62%N ∧ x ≠ dquote ∧ x ≠ 39%N) ∧
  (∀ s, (∀ c, c ∈ s → ¬ html_special c) → html_escape s = s).
Proof.
  split; [apply html_escape_elem|].
  induction s as [|c s IH]; intros Hs; [done|].
  rewrite html_escape_cons, IH.
  - assert (Hc : ¬ html_special c) by (apply Hs; left).
    unfold html_special in Hc. unfold escape_char.
    rewrite !decide_False by tauto. done.
  - intros x Hx. apply Hs. by right.
Qed.

Lemma html_escape_safe_witness :
  html_escape (py "Talin Kamsarakan (Talin)") = py "Talin Kamsarakan (Talin)".
Proof.
  apply (proj2 html_escape_safe).
  intros c Hc. unfold html_special.
  vm_compute in Hc.
  repeat (apply elem_of_cons in Hc as [->|Hc];
          [intros [?|[?|[?|[?|?]]]]; discriminate|]).
  by apply elem_of_nil in Hc.
Defined.

Lemma escape_char_app_inj (a b : N) (u v : str) :
  escape_char a ++ u = escape_char b ++ v → a = b ∧ u = v.
Proof.
  unfold escape_char, dquote.
  repeat case_decide; subst; intros Heq; vm_compute in Heq;
    split; congruence.
Qed.

(** X8. Escaping loses nothing: two texts with the same escaped form are
    the same text. *)
Theorem html_escape_inj (s t : str) :
  html_escape s = html_escape t → s = t.
Proof.
  revert t. induction s as [|a s IH]; intros [|b t].
  - done.
  - rewrite html_escape_nil, html_escape_cons. unfold escape_char.
    repeat case_decide; discriminate.
  - rewrite html_escape_nil, html_escape_cons. unfold escape_char.
    repeat case_decide; discriminate.
  - rewrite !html_escape_cons. intros [-> H]%escape_char_app_inj.
    f_equal. by apply IH.
Qed.

Lemma html_escape_inj_witness :
  py "a<b" = [97; 60; 98]%N.
Proof.
  apply html_escape_inj. vm_compute. reflexivity.
Defined.

(** ** The popup *)

Lemma count_app (c : N) (s t : str) : count c (s ++ t) = count c s + count c t.
Proof. unfold count. by rewrite filter_app, length_app. Qed.

Lemma count_absent (c : N) (s : str) : c ∉ s → count c s = 0.
Proof.
  intros Hc. unfold count. induction s as [|x s IH]; [done|].
  rewrite not_elem_of_cons in Hc. destruct Hc as [Hx Hs].
  rewrite filter_cons_False by congruence. auto.
Qed.

Lemma count_html_escape (c : N) (s : str) :
  c = 60%N ∨ c = 62%N ∨ c = dquote ∨ c = 39%N → count c (html_escape s) = 0.
Proof.
  intros Hc. apply count_absent. intros Hin%html_escape_elem. tauto.
Qed.

(** X9. Whatever the fields of the record hold, the popup has the
    fourteen less-than signs, the fourteen greater-than signs, the eight
    double quotes and the two single quotes of the text of lines 119-130
    and no other: the fields add no tag and close no attribute value. *)
Theorem popup_markup_fixed (row : FlatRecord) :
  count 60%N (popup_html row) = 14 ∧
  count 62%N (popup_html row) = 14 ∧
  count dquote (popup_html row) = 8 ∧
  count 39%N (popup_html row) = 2.
Proof.
  unfold popup_html. cbv zeta.
  split_and!; rewrite !count_app, !count_html_escape by tauto;
    vm_compute; reflexivity.
Qed.

(** ** The thumbnail *)

Lemma occurs_cons (old s : str) (c : N) : occurs old s → occurs old (c :: s).
Proof. intros (a & b & ->). by exists (c :: a), b. Qed.

Lemma replace_scan_absent (o : N) (old' new s : str) :
  ¬ occurs (o :: old') s → replace_scan o old' new s = s.
Proof.
  induction s as [|c r IH]; intros Hs; [by simp replace_scan|].
  rewrite replace_scan_keep.
  - f_equal. apply IH. intros H. by apply Hs, occurs_cons.
  - destruct (strip_prefix _ _) as [rest|] eqn:E; [|done].
    apply strip_prefix_Some in E. exfalso. apply Hs.
    exists [], rest. by rewrite E.
Qed.

(** No occurrence of [".jpg"] starts in a text that does not hold one, even
    when [".jpg"] follows the text. *)
Lemma no_jpg_across (c : N) (a rest : str) :
  ¬ occurs (py ".jpg") (c :: a) →
  strip_prefix (py ".jpg") ((c :: a) ++ py ".jpg" ++ rest) = None.
Proof.
  intros Ha. destruct (strip_prefix _ _) as [r'|] eqn:E; [|done].
  exfalso. apply strip_prefix_Some in E.
  apply app_eq_inv in E as [(k & Hk & _)|(k & Hk & Hr)].
  - apply Ha. exists [], k. by rewrite Hk.
  - vm_compute in Hk.
    destruct a as [|x1 [|x2 [|x3 [|x4 a]]]];
      repeat match goal with
             | H : _ :: _ = _ :: _ |- _ => injection H as ? ?; subst
             | H : _ :: _ = [] ++ _ |- _ => cbn in H
             | H : _ :: _ = (_ :: _) ++ _ |- _ => cbn in H
             | H : [] = _ :: _ |- _ => discriminate H
             | H : [] = (_ :: _) ++ _ |- _ => discriminate H
             end;
      try (vm_compute in Hr; congruence).
    apply Ha. by exists [], [].
Qed.

(** X10. The thumbnail of an image URL without [".jpg"] is the URL itself.
    In a URL every [".jpg"] becomes ["-thumb.jpg"], the one before the end
    as well as any other: after a text without [".jpg"], the first
    [".jpg"] is replaced and the rest of the URL is treated in the same
    way. *)
Theorem thumb_of_jpg :
  (∀ img_full, ¬ occurs (py ".jpg") img_full → thumb_of img_full = img_full) ∧
  (∀ a rest,
     ¬ occurs (py ".jpg") a →
     thumb_of (a ++ py ".jpg" ++ rest) = a ++ py "-thumb.jpg" ++ thumb_of rest).
Proof.
  split.
  - intros img Himg. by apply replace_scan_absent.
  - intros a rest Ha. unfold thumb_of, replace.
    change (py ".jpg") with (46%N :: py "jpg") in *.
    induction a as [|c a IH].
    + cbn [app]. rewrite (replace_scan_match _ _ _ _ _ rest); [done|].
      by apply strip_prefix_Some.
    + change ((c :: a) ++ ?t) with (c :: a ++ t).
      rewrite replace_scan_keep.
      * cbn [app]. f_equal. apply IH. intros H. by apply Ha, occurs_cons.
      * by apply no_jpg_across.
Qed.

Lemma thumb_of_jpg_witness :
  thumb_of (py "http://x/img.jpg") = py "http://x/img-thumb.jpg" ∧
  thumb_of (py "http://x/img.png") = py "http://x/img.png".
Proof.
  assert (Hno : ∀ s, (∀ a b, s ≠ a ++ py ".jpg" ++ b) →
                     ¬ occurs (py ".jpg") s)
    by (intros s Hs (a & b & ->); by eapply Hs).
  split.
  - change (py "http://x/img.jpg") with (py "http://x/img" ++ py ".jpg" ++ []).
    rewrite (proj2 thumb_of_jpg).
    + reflexivity.
    + apply Hno. intros a b Heq.
      assert (Hin : 46%N ∈ py "http://x/img").
      { rewrite Heq. set_solver. }
      vm_compute in Hin.
      repeat (apply elem_of_cons in Hin as [Hin|Hin]; [discriminate Hin|]).
      by apply elem_of_nil in Hin.
  - apply (proj1 thumb_of_jpg). apply Hno. intros a b Heq.
    assert (Hin : 106%N ∈ py "http://x/img.png").
    { rewrite Heq. set_solver. }
    vm_compute in Hin.
    repeat (apply elem_of_cons in Hin as [Hin|Hin]; [discriminate Hin|]).
    by apply elem_of_nil in Hin.
Defined.

(** ** The cache through a run *)

Section cache_through_a_run.
Context {Service File : Type}.
Variable geocoder : str → Service → option Location * Service.
Variable read_csv : File → list Row.
Variable to_csv : list Row → File.
Variable mean : list float → float.

Local Abbreviation run' := (run geocoder read_csv to_csv mean).
Implicit Types (records : list FlatRecord) (s : Service) (d : option File).

(** X11. The cache only grows during a run: every entry it has at the
    start, from the table on disk or from the manual overrides, is there
    at the end with the same coordinates; and every entry at the end is
    either one of those or a location of the records that the cache did not
    know, for which the run appends a row with these coordinates. *)
Theorem cache_only_grows records s d o W :
  run' records (start s d) = (Ok o, W) →
  let cache0 := initial_cache read_csv d in
  (∀ k p, cache0 !! k = Some p → cache o !! k = Some p) ∧
  (∀ k p, cache o !! k = Some p →
     cache0 !! k = Some p ∨
     (k ∈ location <$> records ∧ cache0 !! k = None ∧
      {| query := Some k; lat := p.1; lon := p.2 |} ∈ new_rows o)).
Proof.
  intros Hrun cache0.
  destruct (run_summary_Ok geocoder read_csv to_csv mean _ _ _ _ _ Hrun)
    as (_ & Hkept & Hrows & _).
  fold cache0 in Hkept, Hrows. split.
  - intros k p Hk. rewrite Hkept; [done|]. left.
    intros [_ Hnone]%pending_elem. congruence.
  - intros k p Hk.
    destruct (decide (k ∈ pending (location <$> records) cache0))
      as [Hin|Hout].
    + right. pose proof Hin as [Hloc Hnone]%pending_elem.
      split_and!; [done..|]. rewrite Hrows. apply list_elem_of_omap.
      exists k. split; [done|]. unfold row_of. by rewrite Hk.
    + left. rewrite <- Hkept; [done|]. by left.
Qed.

(** X12. A location of the records that the cache knows at the start
    with a coordinate that is not a number is never repaired: it is not
    resolved again, no notice names it, the cache still has the entry
    when the loop is over, and when the run returns no row of the table
    handed to the renderer has that location. When every record is at
    such a location no row is left, and the run raises at line 110. *)
Theorem cached_blank_hidden records s d l la lo :
  l ∈ location <$> records →
  initial_cache read_csv d !! l = Some (la, lo) →
  PrimFloat.is_nan la || PrimFloat.is_nan lo = true →
  let r := run' records (start s d) in
  (l ∉ pending (location <$> records) (initial_cache read_csv d)) ∧
  (CouldntGeocode l ∉ stdout r.2) ∧
  (after_loop geocoder read_csv records s d).1.1 !! l = Some (la, lo) ∧
  (∀ o, r.1 = Ok o →
        cache o !! l = Some (la, lo) ∧
        ∀ row, row ∈ df o → location (row_record row) ≠ l) ∧
  ((∀ r', r' ∈ records → location r' = l) → r.1 = Raise ValueError).
Proof.
  intros Hl Hc Hnan r. subst r.
  assert (Hne : records ≠ []) by (intros ->; by apply elem_of_nil in Hl).
  destruct (run_summary geocoder read_csv to_csv mean records s d Hne)
    as (o & W & -> & Hkept & _ & Hdf & _ & _ & Hout & _ & _ & Hst).
  rewrite <- Hst. cbn [fst snd].
  assert (Hnot : l ∉ pending (location <$> records) (initial_cache read_csv d)).
  { intros [_ Hnone]%pending_elem. congruence. }
  assert (Hc' : cache o !! l = Some (la, lo))
    by (rewrite Hkept; [done|by left]).
  assert (Hex : ∀ row, row ∈ df o → location (row_record row) ≠ l).
  { intros row Hrow Hloc. rewrite Hdf in Hrow.
    apply dropna_location in Hrow as (_ & Hrow & Hla & Hlo).
    rewrite Hloc, Hc' in Hrow. injection Hrow as -> ->.
    cbn [isna] in Hla, Hlo. rewrite Hla, Hlo in Hnan. done. }
  split_and!; [done| |done| |].
  - rewrite Hout, elem_of_cons, elem_of_app, list_elem_of_fmap.
    intros [[=]|[(l' & [= <-] & [_ Hin]%list_elem_of_filter)|Hg]]; [done|].
    by apply list_elem_of_singleton in Hg.
  - destruct (center_ok mean (df o)); [|done].
    by intros o' [= <-].
  - intros Hall.
    assert (Hempty : df o = []).
    { apply elem_of_nil_inv. intros row Hrow. apply (Hex row Hrow).
      apply Hall. rewrite Hdf in Hrow.
      by apply dropna_location in Hrow as (? & _). }
    by rewrite Hempty, center_ok_nil.
Qed.
End cache_through_a_run.

Lemma cache_only_grows_witness :
  let r := run knows_akhaltsikhe plain_read_csv plain_to_csv plain_mean
             [stone_at "Akhaltsikhe"; stone_at "Sevan"]
             (start tt (Some one_row_table)) in
  match r.1 with
  | Raise _ => False
  | Ok o =>
      ∀ k p, initial_cache plain_read_csv (Some one_row_table) !! k = Some p →
             cache o !! k = Some p
  end.
Proof.
  pose proof (cache_only_grows knows_akhaltsikhe plain_read_csv plain_to_csv
                plain_mean [stone_at "Akhaltsikhe"; stone_at "Sevan"]
                tt (Some one_row_table)) as H.
  cbv zeta in H |- *.
  destruct (run _ _ _ _ _ _) as [[o|e] W] eqn:E; cbn [fst].
  - exact (proj1 (H o W eq_refl)).
  - vm_compute in E. discriminate E.
Defined.

Lemma cached_blank_hidden_witness :
  let r := run knows_nothing plain_read_csv plain_to_csv plain_mean
             [stone_at "Sevan"; stone_at "Sevan"]
             (start tt (Some blank_row_table)) in
  (CouldntGeocode (py "Sevan") ∉ stdout r.2) ∧
  r.1 = Raise ValueError.
Proof.
  intros r.
  destruct (cached_blank_hidden knows_nothing plain_read_csv plain_to_csv
              plain_mean [stone_at "Sevan"; stone_at "Sevan"] tt
              (Some blank_row_table) (py "Sevan") PrimFloat.nan
              PrimFloat.nan) as (_ & Hquiet & _ & _ & Hfatal).
  - cbn. rewrite !elem_of_cons. tauto.
  - vm_compute. reflexivity.
  - reflexivity.
  - split; [exact Hquiet|]. apply Hfatal. intros r' Hr'.
    repeat (apply elem_of_cons in Hr' as [->|Hr']; [reflexivity|]).
    by apply elem_of_nil in Hr'.
Defined.

(** ** The cost of a run *)

Lemma length_variants (loc_raw : str) : length (variants loc_raw) = 6.
Proof. unfold variants. by rewrite length_app, length_fmap. Qed.

Section cost.
Context {Service File : Type}.
Variable geocoder : str → Service → option Location * Service.
Variable read_csv : File → list Row.
Variable to_csv : list Row → File.
Variable mean : list float → float.

Local Abbreviation run' := (run geocoder read_csv to_csv mean).
Implicit Types (records : list FlatRecord) (s : Service) (d : option File).

Lemma all_issued_length (todo : list str) s :
  length todo ≤ length (all_issued geocoder todo s) ≤ 6 * length todo.
Proof.
  revert s. induction todo as [|l todo IH]; intros s; cbn [all_issued length].
  - lia.
  - rewrite length_app.
    assert (Hne : variants l ≠ [])
      by (intros E; by apply (f_equal length) in E).
    pose proof (issued_length geocoder (variants l) s Hne) as H.
    rewrite length_variants in H.
    specialize (IH (after_queries geocoder
                      (issued geocoder (variants l) s) s)).
    lia.
Qed.

(** X13. What a run costs: every location of the records that the cache
    does not know at the start costs at least one and at most six live
    calls, and there are at most as many such locations as records. A run
    on records whose locations the cache all knows sends nothing. *)
Theorem calls_bounded records s d :
  let todo := pending (location <$> records) (initial_cache read_csv d) in
  let W := (run' records (start s d)).2 in
  length todo ≤ length (calls W) ≤ 6 * length todo ∧
  length todo ≤ length records ∧
  ((∀ r, r ∈ records → is_Some (initial_cache read_csv d !! location r)) →
   calls W = []).
Proof.
  intros todo W. subst W. rewrite run_calls. fold todo. split_and!.
  - apply all_issued_length.
  - apply all_issued_length.
  - rewrite <- (length_fmap location records).
    apply submseteq_length, NoDup_submseteq; [apply pending_NoDup|].
    intros l Hl. by apply pending_elem in Hl as [? _].
  - intros Hknown. replace todo with (@nil str); [done|].
    symmetry. apply elem_of_nil_inv.
    intros l [(r' & -> & Hr)%list_elem_of_fmap Hnone]%pending_elem.
    destruct (Hknown r' Hr) as [p Hp]. congruence.
Qed.
End cost.

Lemma calls_bounded_witness :
  calls (run knows_akhaltsikhe plain_read_csv plain_to_csv plain_mean
           [stone_at "Sevan"; stone_at "Sevan"]
           (start tt (Some one_row_table))).2 = [].
Proof.
  apply (calls_bounded knows_akhaltsikhe plain_read_csv plain_to_csv plain_mean
           [stone_at "Sevan"; stone_at "Sevan"] tt (Some one_row_table)).
  intros r Hr.
  assert (r = stone_at "Sevan") as ->.
  { repeat (apply elem_of_cons in Hr as [Hr|Hr]; [done|]).
    by apply elem_of_nil in Hr. }
  vm_compute. by eexists.
Defined.

(** ** The six queries of a location *)

(** X14. The six queries of a location are pairwise distinct, so no
    query is sent twice while one location is resolved. *)
Theorem variants_distinct {Service : Type}
    (geocoder : str → Service → option Location * Service)
    (loc_raw : str) (s : Service) :
  NoDup (variants loc_raw) ∧ NoDup (issued geocoder (variants loc_raw) s).
Proof.
  assert (H : NoDup (variants loc_raw)).
  { unfold variants. apply NoDup_app. split_and!.
    - apply NoDup_fmap_2.
      + intros a b Hab. unfold qualified in Hab. by simplify_list_eq.
      + compute_done.
    - intros q (c & -> & _)%list_elem_of_fmap Hq%list_elem_of_singleton.
      unfold qualified in Hq. apply (f_equal length) in Hq.
      rewrite !length_app in Hq. cbn in Hq. lia.
    - apply NoDup_singleton. }
  split; [done|]. unfold issued.
  eapply sublist_NoDup; [exact H|apply sublist_take].
Qed.

(** ** The table of the cache *)

Lemma foldl_rows_absent (rows : list Row) (c : gmap str (float * float))
    (q : str) :
  q ∉ string_queries rows →
  foldl (λ d r, match query r with
                | Some q => <[q := (lat r, lon r)]> d
                | None => d
                end) c rows !! q = c !! q.
Proof.
  revert c. induction rows as [|r rows IH]; intros c Hq; [done|].
  cbn [foldl]. unfold string_queries in *. rewrite omap_cons_unfold in Hq.
  destruct (query r) as [q'|] eqn:E.
  - apply not_elem_of_cons in Hq as [Hne Hq].
    rewrite IH by done. by rewrite lookup_insert_ne.
  - by rewrite IH.
Qed.

(** X15. When the table on disk has several rows for one query string,
    the cache takes the coordinates of the last of them; a manual
    override for that string still wins. *)
Theorem dict_of_rows_last_wins (rows1 rows2 : list Row) (r : Row) (q : str) :
  query r = Some q →
  q ∉ string_queries rows2 →
  dict_of_rows (rows1 ++ r :: rows2) !! q = Some (lat r, lon r) ∧
  update_manual (dict_of_rows (rows1 ++ r :: rows2)) !! q
  = Some (default (lat r, lon r) (MANUAL !! q)).
Proof.
  intros Hr Hq.
  assert (H : dict_of_rows (rows1 ++ r :: rows2) !! q = Some (lat r, lon r)).
  { unfold dict_of_rows. rewrite foldl_app. cbn [foldl].
    rewrite foldl_rows_absent by done. rewrite Hr. apply lookup_insert_eq. }
  split; [done|]. unfold update_manual.
  destruct (MANUAL !! q) as [p|] eqn:Em; cbn.
  - by apply lookup_union_Some_l.
  - rewrite lookup_union_r by done. done.
Qed.

Lemma dict_of_rows_last_wins_witness :
  dict_of_rows (one_row_table
                ++ {| query := Some (py "Sevan"); lat := 1%float;
                      lon := 2%float |} :: blank_row_table ++ [])
    !! py "Sevan" = Some (PrimFloat.nan, PrimFloat.nan).
Proof.
  apply (dict_of_rows_last_wins
           (one_row_table ++ [{| query := Some (py "Sevan"); lat := 1%float;
                                 lon := 2%float |}])
           []
           {| query := Some (py "Sevan"); lat := PrimFloat.nan;
              lon := PrimFloat.nan |} (py "Sevan")).
  - reflexivity.
  - apply not_elem_of_nil.
Defined.

(** ** Cleaning a clean text *)

(** X16. On a text without a parenthetical segment [strip_parens] only
    strips the white space at both ends; cleaning a cleaned text changes
    nothing; so a location and its cleaned form have the same six
    queries. *)
Theorem strip_parens_idempotent :
  (∀ text, ¬ has_segment text → strip_parens text = strip text) ∧
  (∀ text, strip_parens (strip_parens text) = strip_parens text) ∧
  (∀ text, variants (strip_parens text) = variants text).
Proof.
  assert (H1 : ∀ text, ¬ has_segment text → strip_parens text = strip text).
  { intros text H. unfold strip_parens. by rewrite re_sub_id. }
  assert (H2 : ∀ text, strip_parens (strip_parens text) = strip_parens text).
  { intros text. rewrite H1 by apply strip_parens_no_segment.
    apply strip_id, stripped_strip. }
  split_and!; [done..|].
  intros text. unfold variants. by rewrite H2.
Qed.

Lemma strip_parens_idempotent_witness :
  strip_parens (py " Sevan ") = strip (py " Sevan ").
Proof.
  apply (proj1 strip_parens_idempotent).
  intros (a & b & c & Heq).
  assert (Hin : lparen ∈ py " Sevan ") by (rewrite Heq; set_solver).
  vm_compute in Hin.
  repeat (apply elem_of_cons in Hin as [Hin|Hin]; [discriminate Hin|]).
  by apply elem_of_nil in Hin.
Defined.

(** ** The table handed to the renderer *)

Lemma notna_row_has_coords (cache : gmap str (float * float))
    (r : FlatRecord) :
  row_record <$> notna_row (with_coords cache r)
  = if has_coords cache r then Some r else None.
Proof.
  unfold notna_row, with_coords, has_coords.
  cbn [record_lat record_lon record isna].
  destruct (cache !! location r) as [[la lo]|];
    cbn [fmap option_fmap option_map fst snd]; [|done].
  by destruct (PrimFloat.is_nan la || PrimFloat.is_nan lo).
Qed.

Lemma dropna_records (cache : gmap str (float * float))
    (records : list FlatRecord) :
  row_record <$> dropna (with_coords cache <$> records)
  = filter (λ r, has_coords cache r = true) records.
Proof.
  unfold dropna. induction records as [|r rs IH]; [done|].
  rewrite fmap_cons, omap_cons_unfold.
  pose proof (notna_row_has_coords cache r) as H.
  destruct (notna_row (with_coords cache r)) as [row|];
    destruct (has_coords cache r) eqn:Eh; try discriminate H.
  - injection H as <-. rewrite filter_cons_True by done.
    rewrite fmap_cons. by f_equal.
  - rewrite filter_cons_False by (by rewrite Eh). done.
Qed.

Lemma length_resolved_unresolved (cache : gmap str (float * float))
    (todo : list str) :
  length (omap (row_of cache) todo) + length (unresolved cache todo)
  = length todo.
Proof.
  unfold unresolved. induction todo as [|l todo IH]; [done|].
  destruct (cache !! l) as [p|] eqn:E.
  - rewrite (omap_row_of_resolved _ _ _ _ E).
    rewrite filter_cons_False by congruence. cbn [length]. lia.
  - rewrite (omap_row_of_unresolved _ _ _ E).
    rewrite filter_cons_True by done. cbn [length]. lia.
Qed.

Section table_and_console.
Context {Service File : Type}.
Variable geocoder : str → Service → option Location * Service.
Variable read_csv : File → list Row.
Variable to_csv : list Row → File.
Variable mean : list float → float.

Local Abbreviation run' := (run geocoder read_csv to_csv mean).
Implicit Types (records : list FlatRecord) (s : Service) (d : option File).

(** X17. The table handed to the renderer holds, in the order of the
    records, exactly the records whose location the cache has at the end
    with two coordinates that are numbers, each with the coordinates of the
    cache; the count printed last is the number of these records. *)
Theorem table_keeps_located_records records s d o W :
  run' records (start s d) = (Ok o, W) →
  let located := filter (λ r, has_coords (cache o) r = true) records in
  row_record <$> df o = located ∧
  (∀ row, row ∈ df o →
     cache o !! location (row_record row) = Some (row_lat row, row_lon row)) ∧
  last (stdout W) = Some (Geocoded (length located)).
Proof.
  intros Hrun located.
  destruct (run_summary_Ok geocoder read_csv to_csv mean _ _ _ _ _ Hrun)
    as (_ & _ & _ & Hdf & _ & _ & Hout & _).
  assert (H : row_record <$> df o = located)
    by (rewrite Hdf; apply dropna_records).
  split_and!; [done| |].
  - intros row Hrow. rewrite Hdf in Hrow.
    by apply dropna_location in Hrow as (_ & ? & _).
  - rewrite Hout, app_comm_cons, last_snoc.
    by rewrite <- H, length_fmap.
Qed.

(** X18. Every location that a run has to resolve ends either as a new
    row of the table or as a notice on the console, never both and never
    neither: the console shows the number of records, then one notice for
    each pending location that is still unknown, in the order of the
    resolutions, then the number of rows kept. *)
Theorem pending_resolved_or_noticed records s d o W :
  run' records (start s d) = (Ok o, W) →
  let todo := pending (location <$> records) (initial_cache read_csv d) in
  stdout W = Loaded (length records)
               :: (CouldntGeocode <$> unresolved (cache o) todo)
               ++ [Geocoded (length (df o))] ∧
  length (new_rows o) + length (unresolved (cache o) todo) = length todo ∧
  (∀ l, l ∈ todo →
     (l ∈ string_queries (new_rows o) ↔ CouldntGeocode l ∉ stdout W)).
Proof.
  intros Hrun todo.
  destruct (run_summary_Ok geocoder read_csv to_csv mean _ _ _ _ _ Hrun)
    as (_ & _ & Hrows & _ & _ & _ & Hout & _).
  fold todo in Hrows, Hout. split_and!; [done| |].
  - rewrite Hrows. apply length_resolved_unresolved.
  - intros l Hl.
    assert (Hnotice : CouldntGeocode l ∈ stdout W ↔ cache o !! l = None).
    { rewrite Hout, elem_of_cons, elem_of_app, list_elem_of_fmap. split.
      - intros [[=]|[(l' & [= <-] & [? _]%list_elem_of_filter)|Hg]]; [done|].
        by apply list_elem_of_singleton in Hg.
      - intros Hnone. right. left. exists l. split; [done|].
        by apply list_elem_of_filter. }
    rewrite Hnotice, Hrows, string_queries_row_of, list_elem_of_filter.
    rewrite <- not_eq_None_Some. tauto.
Qed.
End table_and_console.

Lemma table_keeps_located_records_witness :
  let records := [stone_at "Akhaltsikhe"; stone_at "Nowhere"; cross_stone_1] in
  let r := run knows_akhaltsikhe plain_read_csv plain_to_csv plain_mean records
             (start tt None) in
  match r.1 with
  | Raise _ => False
  | Ok o =>
      row_record <$> df o
      = filter (λ r, has_coords (cache o) r = true) records
  end.
Proof.
  intros records r. subst r.
  destruct (run _ _ _ _ _ _) as [[o|e] W] eqn:E; cbn [fst].
  - exact (proj1 (table_keeps_located_records knows_akhaltsikhe
                    plain_read_csv plain_to_csv plain_mean records tt None
                    o W E)).
  - vm_compute in E. discriminate E.
Defined.

Lemma pending_resolved_or_noticed_witness :
  let records := [stone_at "Akhaltsikhe"; stone_at "Nowhere"; cross_stone_1] in
  let r := run knows_akhaltsikhe plain_read_csv plain_to_csv plain_mean records
             (start tt None) in
  match r.1 with
  | Raise _ => False
  | Ok o =>
      length (new_rows o)
      + length (unresolved (cache o)
                  (pending (location <$> records)
                     (initial_cache plain_read_csv None)))
      = length (pending (location <$> records)
                  (initial_cache plain_read_csv None))
  end.
Proof.
  intros records r. subst r.
  destruct (run _ _ _ _ _ _) as [[o|e] W] eqn:E; cbn [fst].
  - exact (proj1 (proj2 (pending_resolved_or_noticed knows_akhaltsikhe
                           plain_read_csv plain_to_csv plain_mean records
                           tt None o W E))).
  - vm_compute in E. discriminate E.
Defined.

(** ** The run after a run *)

Lemma StronglySorted_filter {A} (R : relation A) (P : A → Prop)
    `{!∀ x, Decision (P x)} (l : list A) :
  StronglySorted R l → StronglySorted R (filter P l).
Proof.
  induction 1 as [|x l Hs IH Hall]; [constructor|].
  rewrite filter_cons. destruct (decide (P x)); [|done].
  constructor; [done|]. rewrite Forall_forall in Hall |- *.
  intros y [_ Hy]%list_elem_of_filter. auto.
Qed.

Section next_run.
Context {Service File : Type}.
Variable geocoder : str → Service → option Location * Service.
Variable read_csv : File → list Row.
Variable to_csv : list Row → File.
Variable mean : list float → float.

Local Abbreviation run' := (run geocoder read_csv to_csv mean).
Implicit Types (records : list FlatRecord) (s : Service) (d : option File).

(** X19. After a run that returns and, if it wrote the table, such that
    the locations of the records that are read back from the table it
    wrote as query strings are exactly those that this table holds: a
    second run on the same records that finds the storage artifact as
    the first one left it has to resolve exactly the locations that the
    first run printed a notice for, in the same order, and sends the
    queries of these locations only. *)
Theorem second_run_retries_failures records s1 d o W :
  run' records (start s1 d) = (Ok o, W) →
  let written := table_on_disk read_csv d ++ new_rows o in
  (new_rows o ≠ [] →
   ∀ l, l ∈ location <$> records →
        (l ∈ string_queries (read_csv (to_csv written))
         ↔ l ∈ string_queries written)) →
  let todo1 := pending (location <$> records) (initial_cache read_csv d) in
  let todo2 :=
    pending (location <$> records) (initial_cache read_csv (disk W)) in
  todo2 = unresolved (cache o) todo1 ∧
  stdout W = Loaded (length records) :: (CouldntGeocode <$> todo2)
               ++ [Geocoded (length (df o))] ∧
  (∀ s2, calls (run' records (start s2 (disk W))).2
         = all_issued geocoder todo2 s2).
Proof.
  intros Hrun written Hback todo1 todo2. subst written.
  destruct (table_after_run geocoder read_csv to_csv mean _ _ _ _ _ Hrun)
    as [Hq Htable]. fold todo1 in Hq.
  assert (Hdisk : ∀ l, l ∈ location <$> records →
                       (l ∈ string_queries (table_on_disk read_csv (disk W))
                        ↔ l ∈ string_queries (table_on_disk read_csv d)
                          ∨ l ∈ string_queries (new_rows o))).
  { intros l Hl. destruct Htable as [[Hnil ->]|[Hrows ->]].
    - rewrite Hnil. cbn. rewrite elem_of_nil. tauto.
    - rewrite (Hback Hrows l Hl).
      by rewrite string_queries_app, elem_of_app. }
  assert (Heq : todo2 = unresolved (cache o) todo1).
  { apply (StronglySorted_unique str_le).
    - apply (StronglySorted_merge_sort _).
    - apply StronglySorted_filter, (StronglySorted_merge_sort _).
    - apply NoDup_Permutation;
        [apply pending_NoDup|apply NoDup_filter, pending_NoDup|].
      intros l. unfold unresolved. rewrite list_elem_of_filter.
      unfold todo1, todo2. rewrite !pending_elem, !initial_cache_None.
      destruct (decide (l ∈ location <$> records)) as [Hl|Hl]; [|tauto].
      rewrite (Hdisk l Hl), Hq, list_elem_of_filter, <- not_eq_None_Some.
      unfold todo1. rewrite pending_elem, initial_cache_None.
      clear. destruct (cache o !! l) as [p|]; [|intuition congruence].
      split; [|by intros [[=] _]]. intros (Hl & Hm & Hn). exfalso.
      apply Hn. right. split; [done|]. split_and!; [done..|].
      intros Hin. apply Hn. by left. }
  split_and!; [done| |].
  - rewrite Heq.
    by destruct (run_summary_Ok geocoder read_csv to_csv mean _ _ _ _ _ Hrun)
      as (_ & _ & _ & _ & _ & _ & Hout & _).
  - intros s2. apply run_calls.
Qed.
End next_run.

Lemma second_run_retries_failures_witness :
  let records := [stone_at "Akhaltsikhe"; stone_at "Nowhere"; cross_stone_1] in
  let r := run knows_akhaltsikhe plain_read_csv plain_to_csv plain_mean
             records (start tt None) in
  match r.1 with
  | Raise _ => False
  | Ok o =>
      pending (location <$> records) (initial_cache plain_read_csv (disk r.2))
      = unresolved (cache o)
          (pending (location <$> records) (initial_cache plain_read_csv None))
  end.
Proof.
  intros records r. subst r.
  destruct (run _ _ _ _ _ _) as [[o|e] W] eqn:E; cbn [fst snd].
  - refine (proj1 (second_run_retries_failures knows_akhaltsikhe
                     plain_read_csv plain_to_csv plain_mean
                     records tt None o W E _)).
    intros _ l _. reflexivity.
  - vm_compute in E. discriminate E.
Defined.
